(** * nak req: the filter builder and the line loop of [req.Action]

    A shallow embedding of [src/req.go] (the [req] sub-command of nak):
    the filter that is built for every piped line from the command-line
    flags, the loop over the piped lines, the choice of the delivery
    strategy, the authentication handler, and the properties the
    specification states about them. *)

From stdpp Require Import gmap strings list fin_maps.
From Stdlib Require Import ZArith Lia.

Local Open Scope string_scope.
Local Open Scope Z_scope.
Local Open Scope list_scope.

(** ** Results of fallible code

    [Ok] is a normal result, [Error] a Go [error] value carrying its
    message, [Panic] a run-time panic (here: a write into a nil map). *)

Inductive result (A : Type) : Type :=
| Ok (a : A)
| Error (msg : string)
| Panic.

Arguments Ok {A} a.
Arguments Error {A} msg.
Arguments Panic {A}.

Definition bind {A B : Type} (r : result A) (k : A -> result B) : result B :=
  match r with
  | Ok a => k a
  | Error msg => Error msg
  | Panic => Panic
  end.

Notation "x <- r ;; k" := (bind r (fun x => k))
  (at level 100, r at next level, right associativity).

(** ** Data model *)

(** [nostr.TagMap] is [map[string][]string]. *)
Abbreviation TagMap := (gmap string (list string)).

(** [nostr.Filter].  [Tags] is a Go map and may be nil ([None]); [Since]
    and [Until] are [*Timestamp] and may be nil; [Limit] is an [int]
    whose zero value means that no limit is given; [LimitZero] records an
    explicit limit of zero. *)
Record Filter : Type := mkFilter {
  IDs : list string;
  Kinds : list Z;
  Authors : list string;
  Tags : option TagMap;
  Since : option Z;
  Until : option Z;
  Limit : Z;
  Search : string;
  LimitZero : bool
}.

(** [nostr.Filter{}] *)
Definition empty_filter : Filter :=
  mkFilter [] [] [] None None None 0 EmptyString false.

Definition with_IDs (f : Filter) (v : list string) : Filter :=
  mkFilter v (Kinds f) (Authors f) (Tags f) (Since f) (Until f) (Limit f) (Search f) (LimitZero f).
Definition with_Kinds (f : Filter) (v : list Z) : Filter :=
  mkFilter (IDs f) v (Authors f) (Tags f) (Since f) (Until f) (Limit f) (Search f) (LimitZero f).
Definition with_Authors (f : Filter) (v : list string) : Filter :=
  mkFilter (IDs f) (Kinds f) v (Tags f) (Since f) (Until f) (Limit f) (Search f) (LimitZero f).
Definition with_Tags (f : Filter) (v : option TagMap) : Filter :=
  mkFilter (IDs f) (Kinds f) (Authors f) v (Since f) (Until f) (Limit f) (Search f) (LimitZero f).
Definition with_Since (f : Filter) (v : option Z) : Filter :=
  mkFilter (IDs f) (Kinds f) (Authors f) (Tags f) v (Until f) (Limit f) (Search f) (LimitZero f).
Definition with_Until (f : Filter) (v : option Z) : Filter :=
  mkFilter (IDs f) (Kinds f) (Authors f) (Tags f) (Since f) v (Limit f) (Search f) (LimitZero f).
Definition with_Limit (f : Filter) (v : Z) : Filter :=
  mkFilter (IDs f) (Kinds f) (Authors f) (Tags f) (Since f) (Until f) v (Search f) (LimitZero f).
Definition with_Search (f : Filter) (v : string) : Filter :=
  mkFilter (IDs f) (Kinds f) (Authors f) (Tags f) (Since f) (Until f) (Limit f) v (LimitZero f).
Definition with_LimitZero (f : Filter) (v : bool) : Filter :=
  mkFilter (IDs f) (Kinds f) (Authors f) (Tags f) (Since f) (Until f) (Limit f) (Search f) v.

(** The flags of one invocation, as [req.Action] reads them from
    [c *cli.Command]: [flag_author c] is [c.StringSlice("author")], and so
    on.  [flag_kind c] holds the kinds after the conversion [int(kind64)],
    which keeps an [int64] on a 64-bit target.  A flag that [c.IsSet] distinguishes from its default is an
    option: [flag_since], [flag_until] ([Some t] when the flag is set, [t]
    what [getNaturalDate] returns for it) and [flag_limit] ([Some n] when
    set, [n] the [uint64] given). *)
Record Flags : Type := mkFlags {
  flag_author : list string;
  flag_id : list string;
  flag_kind : list Z;
  flag_tag : list string;
  flag_e : list string;
  flag_p : list string;
  flag_d : list string;
  flag_since : option Z;
  flag_until : option Z;
  flag_limit : option Z;
  flag_search : string;
  flag_stream : bool;
  flag_paginate : bool;
  flag_paginate_interval : Z;
  flag_paginate_global_limit : Z;
  flag_bare : bool;
  flag_auth : bool;
  flag_force_pre_auth : bool
}.

(** [c.Uint("limit")]: the value given, or the default 0. *)
Definition Uint_limit (c : Flags) : Z := default 0 (flag_limit c).

(** [c.IsSet("limit")] *)
Definition IsSet_limit (c : Flags) : bool := bool_decide (is_Some (flag_limit c)).

(** Go's conversion [int(x)] of a [uint64] on a 64-bit target: the same
    64 bits read as a signed number. *)
Definition int_of_uint64 (n : Z) : Z :=
  if n <? 2 ^ 63 then n else n - 2 ^ 64.

(** ** [strings.Split(s, "=")] *)

Definition eq_sign : Ascii.ascii := Ascii.ascii_of_nat 61.

Fixpoint Split_eq (s : string) : list string :=
  match s with
  | EmptyString => [EmptyString]
  | String c rest =>
      if Ascii.eqb c eq_sign then EmptyString :: Split_eq rest
      else match Split_eq rest with
           | piece :: pieces => String c piece :: pieces
           | [] => [String c EmptyString]
           end
  end.

(** ** The tag overrides (req.go, lines 216-244) *)

(** [fmt.Errorf("invalid --tag '%s'", tagFlag)] *)
Definition invalid_tag_msg (tagFlag : string) : string :=
  "invalid --tag '" +:+ tagFlag +:+ "'".

(** One [--tag] value: [spl] is kept when it has two pieces and the first
    is one byte long.  A kept tag is the pair [(spl[0], spl[1])]. *)
Definition parse_tag (tagFlag : string) : result (string * string) :=
  match Split_eq tagFlag with
  | [k; v] => if (String.length k =? 1)%nat then Ok (k, v)
              else Error (invalid_tag_msg tagFlag)
  | _ => Error (invalid_tag_msg tagFlag)
  end.

(** The loop over [c.StringSlice("tag")]: the first malformed value
    returns from the action. *)
Fixpoint parse_tags (tagFlags : list string) : result (list (string * string)) :=
  match tagFlags with
  | [] => Ok []
  | tagFlag :: rest =>
      t <- parse_tag tagFlag ;;
      ts <- parse_tags rest ;;
      Ok (t :: ts)
  end.

(** The [tags] slice after the four loops: the [--tag] values in flag
    order, then [-e], [-p] and [-d]. *)
Definition collect_tags (c : Flags) : result (list (string * string)) :=
  generic <- parse_tags (flag_tag c) ;;
  Ok (generic
        ++ map (fun v => ("e", v)) (flag_e c)
        ++ map (fun v => ("p", v)) (flag_p c)
        ++ map (fun v => ("d", v)) (flag_d c)).

(** Reading [m[k]] of a Go map: a nil map has no entry. *)
Definition tag_lookup (m : option TagMap) (k : string) : option (list string) :=
  m ≫= (.!! k).

(** One iteration of the loop of lines 239-244.  Writing into a nil map
    panics. *)
Definition add_tag (m : option TagMap) (t : string * string) : result (option TagMap) :=
  match m with
  | None => Panic
  | Some m0 =>
      let m1 := match m0 !! t.1 with
                | None => <[t.1 := []]> m0
                | Some _ => m0
                end in
      Ok (Some (<[t.1 := default [] (m1 !! t.1) ++ [t.2]]> m1))
  end.

Fixpoint add_tags (m : option TagMap) (ts : list (string * string)) : result (option TagMap) :=
  match ts with
  | [] => Ok m
  | t :: rest => m' <- add_tag m t ;; add_tags m' rest
  end.

(** ** The filter builder: the body of the line loop, lines 204-260 *)

(** Lines 204-215: the list overrides and the search string. *)
Definition apply_lists (c : Flags) (filter : Filter) : Filter :=
  let filter := if bool_decide (flag_author c = []) then filter
                else with_Authors filter (Authors filter ++ flag_author c) in
  let filter := if bool_decide (flag_id c = []) then filter
                else with_IDs filter (IDs filter ++ flag_id c) in
  let filter := fold_left (fun f kind64 => with_Kinds f (Kinds f ++ [kind64]))
                          (flag_kind c) filter in
  if bool_decide (flag_search c = EmptyString) then filter
  else with_Search filter (flag_search c).

(** Lines 216-244: the tag overrides. *)
Definition apply_tags (c : Flags) (filter : Filter) : result Filter :=
  tags <- collect_tags c ;;
  let filter := match tags, Tags filter with
                | _ :: _, None => with_Tags filter (Some ∅)
                | _, _ => filter
                end in
  m <- add_tags (Tags filter) tags ;;
  Ok (with_Tags filter m).

(** Lines 246-254: [since] and [until]. *)
Definition apply_times (c : Flags) (filter : Filter) : Filter :=
  let filter := match flag_since c with
                | Some nts => with_Since filter (Some nts)
                | None => filter
                end in
  match flag_until c with
  | Some nts => with_Until filter (Some nts)
  | None => filter
  end.

(** Lines 256-260: the limit. *)
Definition apply_limit (c : Flags) (filter : Filter) : Filter :=
  if negb (Uint_limit c =? 0)
  then with_Limit filter (int_of_uint64 (Uint_limit c))
  else if IsSet_limit c then with_LimitZero filter true
  else filter.

Definition build (c : Flags) (base : Filter) : result Filter :=
  filter <- apply_tags c (apply_lists c base) ;;
  Ok (apply_limit c (apply_times c filter)).

(** ** The delivery strategy (lines 262-268)

    [fn] is [pool.SubManyEose] unless [--paginate] or, failing that,
    [--stream] is given. *)

Inductive Strategy : Type :=
| Eose
| Stream
| Paginate (interval globalLimit : Z).

Definition select_fn (c : Flags) : Strategy :=
  if flag_paginate c
  then Paginate (flag_paginate_interval c) (flag_paginate_global_limit c)
  else if flag_stream c then Stream
  else Eose.

(** ** What the action calls outside req.go

    The JSON reader and writer and the relay pool belong to libraries, the
    connection helper to another file; the action is embedded over their
    results.
    - [Unmarshal s] is the filter [easyjson.Unmarshal] leaves in a fresh
      [nostr.Filter{}], [None] when it returns an error;
    - [connectToAllRelays urls preAuth] gives the [URL] of every relay it
      connected to;
    - [events fn urls filter] is what the channel [fn(ctx, urls,
      nostr.Filters{filter})] delivers until it is closed, in a world that
      is fixed for the invocation; a channel that is never closed (the
      streaming strategy without cancellation) has no such list, and what
      is said below of the lines after a subscription is said of runs in
      which the subscription ends;
    - [Filter_String] is [filter.String()], the text of this run (with
      several tag keys the order of a Go map is one of several);
    - [json_Marshal_ReqEnvelope id filters] is the text that [json.Marshal]
      gives for [nostr.ReqEnvelope{SubscriptionID: id, Filters: filters}],
      [None] when it returns an error. *)
Class Environment : Type := {
  Event : Type;
  Unmarshal : string -> option Filter;
  connectToAllRelays : list string -> bool -> list string;
  events : Strategy -> list string -> Filter -> list Event;
  Filter_String : Filter -> string;
  json_Marshal_ReqEnvelope : string -> list Filter -> option string
}.

(** What an invocation does that can be observed from outside. *)
Inductive Effect `{Environment} : Type :=
| Connect (urls : list string) (preAuth : bool)
| Log (msg : string)
| Subscribe (fn : Strategy) (urls : list string) (filter : Filter)
| StdoutEvent (ev : Event)
| Stdout (line : string)
| Close (url : string).

(** How an invocation ends. *)
Inductive Outcome : Type :=
| ReturnNil
| ReturnError (msg : string)
| OsExit (code : Z)
| ExitLineProcessingError
| GoPanic.

Definition quote : string := String (Ascii.ascii_of_nat 34) EmptyString.
Definition newline : string := String (Ascii.ascii_of_nat 10) EmptyString.

(** The start of an iteration, lines 196-202: [None] is the [continue]
    after [lineProcessingError]. *)
Definition read_line `{Environment} (stdinFilter : string) : option Filter :=
  if bool_decide (stdinFilter = EmptyString) then Some empty_filter
  else Unmarshal stdinFilter.

(** The end of an iteration, lines 262-284.  Line 279 drops the error of
    [json.Marshal]: when the envelope cannot be marshalled, [j] is nil and
    the line that is printed is empty. *)
Definition deliver `{Environment} (c : Flags) (relayUrls : list string) (filter : Filter) : list Effect :=
  match relayUrls with
  | _ :: _ =>
      let fn := select_fn c in
      Subscribe fn relayUrls filter :: map StdoutEvent (events fn relayUrls filter)
  | [] =>
      let result := if flag_bare c then Filter_String filter
                    else match json_Marshal_ReqEnvelope "nak" [filter] with
                         | Some j => j
                         | None => EmptyString
                         end in
      [Stdout result]
  end.

(** Modelled from the spec: [lineProcessingError] is not in req.go.  Of the
    context it returns, only whether a line was in error is kept; it is
    what makes the invocation report a failure at exit. *)
Definition lineProcessingError (ctx : bool) : bool := true.

(** Modelled from the spec: [exitIfLineProcessingError] is not in req.go.
    It ends the process with a failure when a line was in error ([Some]),
    and returns otherwise. *)
Definition exitIfLineProcessingError (ctx : bool) : option Outcome :=
  if ctx then Some ExitLineProcessingError else None.

(** The loop over [getStdinLinesOrBlank()], lines 195-285.  The result of
    the loop is [Ok ctx] when it reaches its end and [Error msg] when an
    iteration returns from the action. *)
Fixpoint line_loop `{Environment} (c : Flags) (relayUrls : list string)
    (lines : list string) (ctx : bool) : list Effect * result bool :=
  match lines with
  | [] => ([], Ok ctx)
  | stdinFilter :: rest =>
      match read_line stdinFilter with
      | None => line_loop c relayUrls rest (lineProcessingError ctx)
      | Some filter =>
          match build c filter with
          | Ok filter =>
              let out := line_loop c relayUrls rest ctx in
              (deliver c relayUrls filter ++ out.1, out.2)
          | Error msg => ([], Error msg)
          | Panic => ([], Panic)
          end
      end
  end.

(** After the loop, lines 287-288, with the deferred [relay.Close()] calls
    of lines 188-192: they run when the action returns or panics, not when
    the process exits. *)
Definition finish `{Environment} (relays : list string) (r : result bool) : list Effect * Outcome :=
  match r with
  | Ok ctx =>
      match exitIfLineProcessingError ctx with
      | Some exit => ([], exit)
      | None => (map Close relays, ReturnNil)
      end
  | Error msg => (map Close relays, ReturnError msg)
  | Panic => (map Close relays, GoPanic)
  end.

Definition no_relays_msg : string :=
  "failed to connect to any of the given relays." +:+ newline.

(** [req.Action]: [args] is [c.Args().Slice()], [lines] what
    [getStdinLinesOrBlank()] yields. *)
Definition Action `{Environment} (c : Flags) (args : list string) (lines : list string)
    : list Effect * Outcome :=
  match args with
  | [] =>
      let run := line_loop c [] lines false in
      let fin := finish [] run.2 in
      (run.1 ++ fin.1, fin.2)
  | _ :: _ =>
      let relays := connectToAllRelays args (flag_force_pre_auth c) in
      match relays with
      | [] =>
          ([Connect args (flag_force_pre_auth c); Log no_relays_msg], OsExit 3)
      | _ :: _ =>
          let run := line_loop c relays lines false in
          let fin := finish relays run.2 in
          (Connect args (flag_force_pre_auth c) :: run.1 ++ fin.1, fin.2)
      end
  end.

(** The effects that touch a relay connection. *)
Definition is_network `{Environment} (e : Effect) : bool :=
  match e with
  | Connect _ _ | Subscribe _ _ _ | Close _ => true
  | _ => false
  end.

(** ** The authentication handler (lines 153-178)

    The handler is the closure given to [nostr.WithAuthHandler].  What it
    calls is outside req.go and is taken from [Signer]:
    [gatherSecretKeyOrBunkerFromArguments], the bunker's [GetPublicKey] and
    [SignEvent], [nostr.GetPublicKey] (whose error the handler drops) and
    [evt.Sign].  A call that returns a value and an error gives [Value v]
    or [Failed err]; a signing call gives [None] for a nil error. *)
Inductive orError (A : Type) : Type :=
| Value (v : A)
| Failed (err : string).

Arguments Value {A} v.
Arguments Failed {A} err.

Class Signer : Type := {
  Bunker : Type;
  AuthEvent : Type;
  gatherSecretKeyOrBunkerFromArguments : Flags -> orError (string * option Bunker);
  Bunker_GetPublicKey : Bunker -> orError string;
  nostr_GetPublicKey : string -> string;
  Bunker_SignEvent : Bunker -> AuthEvent -> option string;
  Event_Sign : AuthEvent -> string -> option string
}.

Inductive AuthEffect `{Signer} : Type :=
| GatherKey
| AskBunkerPublicKey (bunker : Bunker)
| AuthLog (msg : string)
| SignWithBunker (bunker : Bunker) (evt : AuthEvent)
| SignWithKey (sec : string) (evt : AuthEvent).

Definition performing_auth_msg (pk : string) : string :=
  "performing auth as " +:+ pk +:+ "... ".

(** The handler gives what it did and the error it returns ([None]: nil). *)
Definition authHandler `{Signer} (c : Flags) (evt : AuthEvent) : list AuthEffect * option string :=
  if negb (flag_auth c) && negb (flag_force_pre_auth c)
  then ([], Some "auth not authorized")
  else
    match gatherSecretKeyOrBunkerFromArguments c with
    | Failed err => ([GatherKey], Some err)
    | Value (sec, Some bunker) =>
        match Bunker_GetPublicKey bunker with
        | Value pk =>
            ([GatherKey; AskBunkerPublicKey bunker; AuthLog (performing_auth_msg pk);
              SignWithBunker bunker evt],
             Bunker_SignEvent bunker evt)
        | Failed err =>
            ([GatherKey; AskBunkerPublicKey bunker],
             Some ("failed to get public key from bunker: " +:+ err))
        end
    | Value (sec, None) =>
        let pk := nostr_GetPublicKey sec in
        ([GatherKey; AuthLog (performing_auth_msg pk); SignWithKey sec evt],
         Event_Sign evt sec)
    end.

(** Modelled from the spec: the states of a challenge, [NoAuth ->
    ChallengeReceived -> {Signing -> Authed | Refused}]. *)
Inductive AuthState : Type :=
| NoAuth
| ChallengeReceived
| Signing
| Authed
| Refused.

Record ChallengeResult `{Signer} : Type := mkChallengeResult {
  auth_path : list AuthState;
  auth_effects : list AuthEffect;
  resends : nat
}.

Arguments mkChallengeResult {_} auth_path auth_effects resends.

(** Modelled from the spec: the code that calls the handler and resends the
    request is the relay pool's, not in req.go.  [Authed] resends the
    triggering request exactly once, [Refused] fails it for good, and a
    second challenge on a request that was already resent is [Refused].
    The handler runs unless the request was already resent; a handler that
    fails before it does anything leads straight to [Refused], any other
    run goes through [Signing]. *)
Definition on_challenge `{Signer} (c : Flags) (evt : AuthEvent) (alreadyResent : bool)
    : ChallengeResult :=
  if alreadyResent then mkChallengeResult [ChallengeReceived; Refused] [] 0
  else
    let run := authHandler c evt in
    match run.1, run.2 with
    | [], Some _ => mkChallengeResult [ChallengeReceived; Refused] [] 0
    | effs, Some _ => mkChallengeResult [ChallengeReceived; Signing; Refused] effs 0
    | effs, None => mkChallengeResult [ChallengeReceived; Signing; Authed] effs 1
    end.

(** ** The pagination controller

    [paginateWithPoolAndParams] is not in req.go, which only calls it
    (line 265); the controller is the one of section 4.5 of the
    specification.  A round is given by the creation timestamps of the
    events it returns. *)

(** Modelled from the spec: the state of a pagination, without the oldest
    timestamp seen per relay, which the rule of section 4.5 does not use. *)
Record PaginationState : Type := mkPaginationState {
  currentUntil : option Z;
  totalReceived : Z
}.

Inductive StopReason : Type :=
| LimitReached
| GlobalLimitReached
| SinceReached
| EmptyRound.

(** Modelled from the spec: "the minimum creation-timestamp across all
    events returned that round". *)
Fixpoint minTimestamp (round : list Z) : option Z :=
  match round with
  | [] => None
  | t :: rest =>
      match minTimestamp rest with
      | None => Some t
      | Some m => Some (Z.min t m)
      end
  end.

(** Modelled from the spec: "set next round's [until = min(minTimestamp -
    1, previousUntil - 1)]"; round 0 may have no [until]. *)
Definition next_until (previousUntil : option Z) (minTs : Z) : Z :=
  match previousUntil with
  | None => minTs - 1
  | Some u => Z.min (minTs - 1) (u - 1)
  end.

Definition reached (bound : option Z) (total : Z) : bool :=
  match bound with
  | Some n => n <=? total
  | None => false
  end.

Definition below (since : option Z) (u : Z) : bool :=
  match since with
  | Some s => u <? s
  | None => false
  end.

(** Modelled from the spec: [paginateWithPoolAndParams].  Round 0 uses the
    filter's [until] (or none); [totalReceived] accumulates; pagination
    stops when (a) the filter's limit is set and [totalReceived >= limit],
    (b) the global limit is set and [totalReceived >= globalLimit], (c) the
    filter's [since] is set and the next [until] is below it, (d) a round
    returns no event.  [paginate] runs the rounds whose answers are
    [rounds] (after the last one the relays have nothing more) and gives
    the [until] of every further round it issues, in order, and why it
    stops. *)
Fixpoint paginate (limit globalLimit since : option Z) (st : PaginationState)
    (rounds : list (list Z)) : list Z * StopReason :=
  match rounds with
  | [] => ([], EmptyRound)
  | round :: rest =>
      match minTimestamp round with
      | None => ([], EmptyRound)
      | Some minTs =>
          let total := totalReceived st + Z.of_nat (length round) in
          if reached limit total then ([], LimitReached)
          else if reached globalLimit total then ([], GlobalLimitReached)
          else
            let u := next_until (currentUntil st) minTs in
            if below since u then ([], SinceReached)
            else
              let out := paginate limit globalLimit since (mkPaginationState (Some u) total) rest in
              (u :: out.1, out.2)
      end
  end.

(** A sequence of [until] values that goes down by at least one at every
    step, from [prev] on. *)
Fixpoint descending (prev : option Z) (us : list Z) : Prop :=
  match us with
  | [] => True
  | u :: rest =>
      match prev with
      | Some p => u <= p - 1
      | None => True
      end /\ descending (Some u) rest
  end.

(** The rule that links every [until] to the round before it. *)
Fixpoint follows_rule (prev : option Z) (rounds : list (list Z)) (us : list Z) : Prop :=
  match us, rounds with
  | [], _ => True
  | u :: us', round :: rounds' =>
      (exists minTs, minTimestamp round = Some minTs
                     /\ Forall (fun t => minTs <= t) round
                     /\ u = next_until prev minTs)
      /\ follows_rule (Some u) rounds' us'
  | _ :: _, [] => False
  end.

(** The rule of section 4.5 said without the definitions above: every value
    of [us] is [min(m - 1, previous - 1)], where [m] is a timestamp of the
    round before it that none of the round's timestamps is below, and
    [previous] the [until] that round was issued with ([prev] for the first
    round, which may have none). *)
Fixpoint obeys_rule (prev : option Z) (rounds : list (list Z)) (us : list Z) : Prop :=
  match us, rounds with
  | [], _ => True
  | u :: us', round :: rounds' =>
      (exists m, m ∈ round /\ Forall (fun t => m <= t) round
                 /\ u = match prev with
                        | Some p => Z.min (m - 1) (p - 1)
                        | None => m - 1
                        end)
      /\ obeys_rule (Some u) rounds' us'
  | _ :: _, [] => False
  end.

(** ** Vocabulary of the properties *)

(** The values that a list of tags gives for one key, in the order of the
    list. *)
Fixpoint values_of (k : string) (ts : list (string * string)) : list string :=
  match ts with
  | [] => []
  | t :: rest => if decide (t.1 = k) then t.2 :: values_of k rest else values_of k rest
  end.

(** No byte of [s] is the equals sign. *)
Fixpoint eq_free (s : string) : bool :=
  match s with
  | EmptyString => true
  | String c rest => negb (Ascii.eqb c eq_sign) && eq_free rest
  end.

(** The values that the flags give for the key [k]: the [--tag] values
    first, in flag order, then those of [-e], [-p] and [-d]. *)
Definition new_values (c : Flags) (generic : list (string * string)) (k : string) : list string :=
  values_of k generic
    ++ (if decide (k = "e") then flag_e c else [])
    ++ (if decide (k = "p") then flag_p c else [])
    ++ (if decide (k = "d") then flag_d c else []).

(** A [--tag] value that the loop of lines 217-224 keeps. *)
Definition well_formed_tag (tagFlag : string) : bool :=
  match parse_tag tagFlag with
  | Ok _ => true
  | _ => false
  end.

(** The first [--tag] value that the loop rejects, if any. *)
Fixpoint first_malformed (tagFlags : list string) : option string :=
  match tagFlags with
  | [] => None
  | tagFlag :: rest =>
      if well_formed_tag tagFlag then first_malformed rest else Some tagFlag
  end.

(** The filter of a line that is read and built without error. *)
Definition built_filter `{Environment} (c : Flags) (line : string) : option Filter :=
  match read_line line with
  | Some base =>
      match build c base with
      | Ok filter => Some filter
      | _ => None
      end
  | None => None
  end.

(** What one line contributes to the trace when it is carried through. *)
Definition line_effects `{Environment} (c : Flags) (relayUrls : list string) (line : string)
    : list Effect :=
  match built_filter c line with
  | Some filter => deliver c relayUrls filter
  | None => []
  end.

(** A line that [easyjson.Unmarshal] rejects. *)
Definition invalid_json `{Environment} (line : string) : bool :=
  negb (bool_decide (line = EmptyString)) && negb (bool_decide (is_Some (Unmarshal line))).

(** Every way out of the action but [return nil] reports a failure. *)
Definition is_failure (o : Outcome) : bool :=
  match o with
  | ReturnNil => false
  | _ => true
  end.

(** An effect that, when it opens a subscription, opens it with [fn]. *)
Definition subscribes_with `{Environment} (fn : Strategy) (e : Effect) : Prop :=
  match e with
  | Subscribe fn' _ _ => fn' = fn
  | _ => True
  end.

(** No flag of the filter attributes is given. *)
Definition no_filter_flags (c : Flags) : Prop :=
  flag_author c = [] /\ flag_id c = [] /\ flag_kind c = [] /\ flag_tag c = []
  /\ flag_e c = [] /\ flag_p c = [] /\ flag_d c = []
  /\ flag_since c = None /\ flag_until c = None /\ flag_limit c = None
  /\ flag_search c = EmptyString.

Definition is_Close `{Environment} (e : Effect) : bool :=
  match e with
  | Close _ => true
  | _ => false
  end.

Definition is_Stdout `{Environment} (e : Effect) : bool :=
  match e with
  | Stdout _ => true
  | _ => false
  end.

(** What a subscription for [filter] adds to the trace. *)
Definition subscription `{Environment} (c : Flags) (relayUrls : list string) (filter : Filter)
    : list Effect :=
  Subscribe (select_fn c) relayUrls filter
    :: map StdoutEvent (events (select_fn c) relayUrls filter).

Definition is_signing `{Signer} (e : AuthEffect) : bool :=
  match e with
  | SignWithBunker _ _ | SignWithKey _ _ => true
  | _ => false
  end.

(** An effect that, when it opens a subscription, opens it to [urls]. *)
Definition subscribes_to `{Environment} (urls : list string) (e : Effect) : Prop :=
  match e with
  | Subscribe _ urls' _ => urls' = urls
  | _ => True
  end.

(** ** Sample inputs *)

Definition no_flags : Flags :=
  mkFlags [] [] [] [] [] [] [] None None None EmptyString
          false false 0 0 false false false.

Definition with_flag_tag (c : Flags) (v : list string) : Flags :=
  mkFlags (flag_author c) (flag_id c) (flag_kind c) v (flag_e c) (flag_p c) (flag_d c)
          (flag_since c) (flag_until c) (flag_limit c) (flag_search c) (flag_stream c)
          (flag_paginate c) (flag_paginate_interval c) (flag_paginate_global_limit c)
          (flag_bare c) (flag_auth c) (flag_force_pre_auth c).

Definition with_flag_e (c : Flags) (v : list string) : Flags :=
  mkFlags (flag_author c) (flag_id c) (flag_kind c) (flag_tag c) v (flag_p c) (flag_d c)
          (flag_since c) (flag_until c) (flag_limit c) (flag_search c) (flag_stream c)
          (flag_paginate c) (flag_paginate_interval c) (flag_paginate_global_limit c)
          (flag_bare c) (flag_auth c) (flag_force_pre_auth c).

Definition with_flag_auth (c : Flags) (auth : bool) : Flags :=
  mkFlags (flag_author c) (flag_id c) (flag_kind c) (flag_tag c) (flag_e c) (flag_p c)
          (flag_d c) (flag_since c) (flag_until c) (flag_limit c) (flag_search c)
          (flag_stream c) (flag_paginate c) (flag_paginate_interval c)
          (flag_paginate_global_limit c) (flag_bare c) auth (flag_force_pre_auth c).

Definition with_flag_limit (c : Flags) (v : option Z) : Flags :=
  mkFlags (flag_author c) (flag_id c) (flag_kind c) (flag_tag c) (flag_e c) (flag_p c)
          (flag_d c) (flag_since c) (flag_until c) v (flag_search c) (flag_stream c)
          (flag_paginate c) (flag_paginate_interval c) (flag_paginate_global_limit c)
          (flag_bare c) (flag_auth c) (flag_force_pre_auth c).

Definition with_flag_times (c : Flags) (s u : option Z) : Flags :=
  mkFlags (flag_author c) (flag_id c) (flag_kind c) (flag_tag c) (flag_e c) (flag_p c)
          (flag_d c) s u (flag_limit c) (flag_search c) (flag_stream c)
          (flag_paginate c) (flag_paginate_interval c) (flag_paginate_global_limit c)
          (flag_bare c) (flag_auth c) (flag_force_pre_auth c).

Definition with_flag_modes (c : Flags) (stream paginate : bool) : Flags :=
  mkFlags (flag_author c) (flag_id c) (flag_kind c) (flag_tag c) (flag_e c) (flag_p c)
          (flag_d c) (flag_since c) (flag_until c) (flag_limit c) (flag_search c) stream
          paginate (flag_paginate_interval c) (flag_paginate_global_limit c)
          (flag_bare c) (flag_auth c) (flag_force_pre_auth c).

(** A small world: the only JSON document read is the empty object, which
    leaves an empty tag map; every relay but one can be reached; a round of
    any strategy delivers the relay addresses themselves; a filter prints
    as its list of authors; and the envelope cannot be marshalled when a
    filter has the double quote as a tag key. *)
Definition sample_Unmarshal (s : string) : option Filter :=
  if bool_decide (s = "{}") then Some (with_Tags empty_filter (Some ∅)) else None.

Definition sample_connect (urls : list string) (preAuth : bool) : list string :=
  List.filter (fun u => negb (bool_decide (u = "wss://down.example"))) urls.

Definition sample_String (f : Filter) : string :=
  "{authors:" +:+ String.concat "," (Authors f) +:+ "}".

Definition sample_Marshal (id : string) (filters : list Filter) : option string :=
  if existsb (fun f => bool_decide (is_Some (tag_lookup (Tags f) quote))) filters
  then None
  else Some ("[REQ," +:+ id
               +:+ String.concat EmptyString (map (fun f => "," +:+ sample_String f) filters)
               +:+ "]").

Definition sample_env : Environment :=
  Build_Environment string sample_Unmarshal sample_connect (fun _ urls _ => urls)
                    sample_String sample_Marshal.

(** A signer without a bunker, whose key is the one given by default. *)
Definition sample_signer : Signer :=
  Build_Signer Empty_set string
    (fun _ => Value ("0000000000000000000000000000000000000000000000000000000000000001", None))
    (fun b => match b with end)
    (fun sec => "pk-of-" +:+ sec)
    (fun b => match b with end)
    (fun _ _ => None).

(** * Properties of the filter builder *)

Example Split_eq_ex1 : Split_eq "t=spam" = ["t"; "spam"].
Proof. reflexivity. Qed.

Example Split_eq_ex2 : Split_eq "a=b=c" = ["a"; "b"; "c"].
Proof. reflexivity. Qed.

Example Split_eq_ex3 : Split_eq "" = [""].
Proof. reflexivity. Qed.

Example Split_eq_ex4 : Split_eq "=" = [""; ""].
Proof. reflexivity. Qed.

Lemma kinds_loop (ks : list Z) (f : Filter) :
  fold_left (fun f kind64 => with_Kinds f (Kinds f ++ [kind64])) ks f
  = with_Kinds f (Kinds f ++ ks).
Proof.
  revert f. induction ks as [|k ks IH]; intros f; simpl.
  - destruct f; unfold with_Kinds; simpl. by rewrite app_nil_r.
  - rewrite IH. unfold with_Kinds; simpl. by rewrite <- app_assoc.
Qed.

(** The list overrides only touch the four fields they are about. *)
Lemma apply_lists_frame (c : Flags) (f : Filter) :
  Tags (apply_lists c f) = Tags f
  /\ Since (apply_lists c f) = Since f
  /\ Until (apply_lists c f) = Until f
  /\ Limit (apply_lists c f) = Limit f
  /\ LimitZero (apply_lists c f) = LimitZero f.
Proof.
  unfold apply_lists. rewrite kinds_loop.
  repeat case_bool_decide; simpl; auto.
Qed.

Lemma apply_lists_fields (c : Flags) (f : Filter) :
  Authors (apply_lists c f) = Authors f ++ flag_author c
  /\ IDs (apply_lists c f) = IDs f ++ flag_id c
  /\ Kinds (apply_lists c f) = Kinds f ++ flag_kind c
  /\ Search (apply_lists c f)
     = (if bool_decide (flag_search c = EmptyString) then Search f else flag_search c).
Proof.
  unfold apply_lists. rewrite kinds_loop.
  repeat case_bool_decide; simpl; repeat split; auto;
    repeat match goal with H : _ = [] |- _ => rewrite H end;
    by rewrite ?app_nil_r.
Qed.

Lemma apply_tags_Ok (c : Flags) (f f' : Filter) :
  apply_tags c f = Ok f' ->
  exists m, f' = with_Tags f m.
Proof.
  unfold apply_tags. destruct (collect_tags c) as [tags| |]; simpl; try discriminate.
  destruct tags as [|t tags], (Tags f) as [m0|] eqn:Hm; simpl;
    try rewrite Hm; simpl;
    match goal with |- context [add_tag ?a ?b] => destruct (add_tag a b) as [m1| |]; simpl; try discriminate | _ => idtac end;
    try match goal with |- context [add_tags ?a ?b] => destruct (add_tags a b) as [m2| |]; simpl; try discriminate end;
    intros [= <-]; eexists; unfold with_Tags; simpl; reflexivity.
Qed.

(** What the builder leaves of the base filter's time bounds and limit:
    only [apply_times] and [apply_limit] write them. *)
Lemma build_Ok_bounds (c : Flags) (base f : Filter) :
  build c base = Ok f ->
  exists g, f = apply_limit c (apply_times c g)
            /\ Since g = Since base /\ Until g = Until base
            /\ Limit g = Limit base /\ LimitZero g = LimitZero base.
Proof.
  unfold build. destruct (apply_tags c (apply_lists c base)) as [g| |] eqn:Hg;
    simpl; try discriminate.
  intros [= <-]. exists g. split; [done|].
  apply apply_tags_Ok in Hg as [m ->].
  destruct (apply_lists_frame c base) as (_ & ? & ? & ? & ?). simpl. auto.
Qed.

Lemma int_of_uint64_small (n : Z) : n < 2 ^ 63 -> int_of_uint64 n = n.
Proof. intros Hn. unfold int_of_uint64. destruct (Z.ltb_spec n (2 ^ 63)); lia. Qed.

(** C7: a [since] or [until] flag that is set replaces what the base filter
    has in that field with the flag's timestamp, whatever the base value
    was; a flag that is not set leaves the base value as it is. *)
Theorem since_until_override_replaces (c : Flags) (base f : Filter) :
  build c base = Ok f ->
  Since f = match flag_since c with Some nts => Some nts | None => Since base end
  /\ Until f = match flag_until c with Some nts => Some nts | None => Until base end.
Proof.
  intros Hb. apply build_Ok_bounds in Hb as (g & -> & Hs & Hu & _ & _).
  rewrite <- Hs, <- Hu. unfold apply_limit, apply_times.
  destruct (negb _), (IsSet_limit c), (flag_since c), (flag_until c); simpl; auto.
Qed.

Lemma since_until_override_replaces_witness :
  let c := with_flag_times no_flags (Some 1700000000) None in
  let base := with_Until (with_Since empty_filter (Some 5)) (Some 9) in
  let f := with_Since base (Some 1700000000) in
  build c base = Ok f /\ Since f = Some 1700000000 /\ Until f = Some 9.
Proof.
  split; [reflexivity|].
  apply (since_until_override_replaces
           (with_flag_times no_flags (Some 1700000000) None)
           (with_Until (with_Since empty_filter (Some 5)) (Some 9))).
  reflexivity.
Defined.

(** The limit step, field by field: a limit flag of 0 sets [LimitZero] and
    does not write [Limit]; a positive limit [n] below [2^63] is written to
    [Limit] as it is, and [LimitZero] is not written; without a limit flag
    neither field is written. *)
Theorem limit_override (c : Flags) (base f : Filter) :
  build c base = Ok f ->
  (flag_limit c = Some 0 -> LimitZero f = true /\ Limit f = Limit base)
  /\ (forall n, flag_limit c = Some n -> 0 < n < 2 ^ 63 ->
        Limit f = n /\ LimitZero f = LimitZero base)
  /\ (flag_limit c = None -> Limit f = Limit base /\ LimitZero f = LimitZero base).
Proof.
  intros Hb. apply build_Ok_bounds in Hb as (g & -> & _ & _ & Hl & Hz).
  rewrite <- Hl, <- Hz. clear Hl Hz base.
  assert (Ht : Limit (apply_times c g) = Limit g /\ LimitZero (apply_times c g) = LimitZero g).
  { unfold apply_times. destruct (flag_since c), (flag_until c); simpl; auto. }
  destruct Ht as [Ht1 Ht2]. rewrite <- Ht1, <- Ht2.
  unfold apply_limit, Uint_limit, IsSet_limit.
  split; [|split].
  - intros ->. simpl. auto.
  - intros n -> [Hpos Hlt]. simpl.
    destruct (Z.eqb_spec n 0) as [?|_]; [lia|]. simpl.
    split; [by apply int_of_uint64_small|done].
  - intros ->. simpl. auto.
Qed.

Lemma limit_override_witness :
  let c := with_flag_limit no_flags (Some 5) in
  let f := with_Limit empty_filter 5 in
  build c empty_filter = Ok f /\ Limit f = 5 /\ LimitZero f = false.
Proof.
  split; [reflexivity|].
  destruct (limit_override (with_flag_limit no_flags (Some 5)) empty_filter
              (with_Limit empty_filter 5) eq_refl) as (_ & H & _).
  exact (H 5 eq_refl ltac:(lia)).
Defined.

(** On a line that carries no limit the three cases are as the
    specification has them: an explicit zero with the limit unset, a
    positive limit below [2^63] verbatim without the explicit zero, and
    both unset without the flag, whatever the other fields are. *)
Lemma limit_override_on_line_without_limit (c : Flags) (base f : Filter) :
  Limit base = 0 -> LimitZero base = false ->
  build c base = Ok f ->
  (flag_limit c = Some 0 -> LimitZero f = true /\ Limit f = 0)
  /\ (forall n, flag_limit c = Some n -> 0 < n < 2 ^ 63 ->
        Limit f = n /\ LimitZero f = false)
  /\ (flag_limit c = None -> Limit f = 0 /\ LimitZero f = false).
Proof.
  intros Hl Hz Hb. destruct (build_Ok_bounds c base f Hb) as (g & -> & _ & _ & Hgl & Hgz).
  assert (Ht : Limit (apply_times c g) = 0 /\ LimitZero (apply_times c g) = false).
  { unfold apply_times. destruct (flag_since c), (flag_until c); simpl; split; congruence. }
  destruct Ht as [Ht1 Ht2]. unfold apply_limit, Uint_limit, IsSet_limit.
  split; [|split].
  - intros ->. simpl. auto.
  - intros n -> [Hpos Hlt]. simpl.
    destruct (Z.eqb_spec n 0) as [?|_]; [lia|]. simpl.
    split; [by apply int_of_uint64_small|done].
  - intros ->. simpl. auto.
Qed.

Example limit_zero_on_empty :
  build (with_flag_limit no_flags (Some 0)) empty_filter
  = Ok (with_LimitZero empty_filter true).
Proof. reflexivity. Qed.

Example limit_five_on_empty :
  build (with_flag_limit no_flags (Some 5)) empty_filter
  = Ok (with_Limit empty_filter 5).
Proof. reflexivity. Qed.

Example no_limit_on_empty : build no_flags empty_filter = Ok empty_filter.
Proof. reflexivity. Qed.

(** On a piped line that carries an explicit limit of zero, [-l 5] makes
    the limit 5 and [LimitZero] is still [true]. *)
Lemma limit_override_keeps_LimitZero :
  let base := with_LimitZero empty_filter true in
  exists f, build (with_flag_limit no_flags (Some 5)) base = Ok f
            /\ Limit f = 5 /\ LimitZero f <> false.
Proof. eexists. split; [reflexivity|]. simpl. split; [reflexivity | discriminate]. Qed.

(** C2: the code misses two cases of what is said of the limit.  [-l 0]
    over a piped limit of 7 sets the explicit zero and leaves the 7 in
    place, so that the filter still carries a limit, where [-l 5] over the
    same line replaces the 7; and the limit flag [2^63] reaches the filter
    as [-2^63], not verbatim. *)
Theorem limit_override_misses :
  build (with_flag_limit no_flags (Some 0)) (with_Limit empty_filter 7)
  = Ok (with_LimitZero (with_Limit empty_filter 7) true)
  /\ build (with_flag_limit no_flags (Some 5)) (with_Limit empty_filter 7)
     = Ok (with_Limit empty_filter 5)
  /\ build (with_flag_limit no_flags (Some (2 ^ 63))) empty_filter
     = Ok (with_Limit empty_filter (- 2 ^ 63)).
Proof. repeat split; reflexivity. Qed.

(** A limit flag from [2^63] on does not reach the filter verbatim. *)
Example limit_override_wraps :
  build (with_flag_limit no_flags (Some (2 ^ 63))) empty_filter
  = Ok (with_Limit empty_filter (- 2 ^ 63)).
Proof. reflexivity. Qed.

(** A piped limit is kept when no limit flag is given. *)
Example no_limit_keeps_base :
  build no_flags (with_Limit empty_filter 7) = Ok (with_Limit empty_filter 7).
Proof. reflexivity. Qed.

(** ** The tag overrides *)

Lemma values_of_app (k : string) (ts1 ts2 : list (string * string)) :
  values_of k (ts1 ++ ts2) = values_of k ts1 ++ values_of k ts2.
Proof.
  induction ts1 as [|t ts1 IH]; simpl; [done|].
  case_decide; simpl; by rewrite IH.
Qed.

Lemma values_of_shortcut (k key : string) (vs : list string) :
  values_of k (map (fun v => (key, v)) vs) = if decide (k = key) then vs else [].
Proof.
  induction vs as [|v vs IH]; simpl.
  - by case_decide.
  - rewrite IH. repeat case_decide; simpl; congruence.
Qed.

Lemma Split_eq_not_nil (s : string) : Split_eq s <> [].
Proof.
  destruct s as [|c s]; simpl; [done|].
  destruct (Ascii.eqb c eq_sign); [done|]. by destruct (Split_eq s).
Qed.

Lemma Split_eq_one (s v : string) : Split_eq s = [v] -> s = v /\ eq_free s = true.
Proof.
  revert v. induction s as [|c s IH]; intros v; simpl.
  - by intros [= <-].
  - destruct (Ascii.eqb c eq_sign) eqn:Hc.
    + intros [= _ Hs]. by apply Split_eq_not_nil in Hs.
    + destruct (Split_eq s) as [|piece pieces] eqn:Hs; [by apply Split_eq_not_nil in Hs|].
      intros [= <- ->]. destruct (IH piece eq_refl) as [-> ->]. done.
Qed.

Lemma Split_eq_two (s k v : string) :
  Split_eq s = [k; v] ->
  s = k +:+ "=" +:+ v /\ eq_free k = true /\ eq_free v = true.
Proof.
  revert k. induction s as [|c s IH]; intros k; simpl; [discriminate|].
  destruct (Ascii.eqb c eq_sign) eqn:Hc.
  - intros [= <- Hs]. apply Ascii.eqb_eq in Hc as ->.
    apply Split_eq_one in Hs as [-> ->]. done.
  - destruct (Split_eq s) as [|piece pieces] eqn:Hs; [discriminate|].
    intros [= <- ->]. destruct (IH piece eq_refl) as (-> & Hk & Hv).
    simpl. rewrite Hc, Hk, Hv. done.
Qed.

Lemma Split_eq_free (s : string) : eq_free s = true -> Split_eq s = [s].
Proof.
  induction s as [|c s IH]; simpl; [done|].
  destruct (Ascii.eqb c eq_sign); simpl; [discriminate|].
  intros Hs. by rewrite IH.
Qed.

Lemma Split_eq_join (k v : string) :
  eq_free k = true -> Split_eq (k +:+ "=" +:+ v) = k :: Split_eq v.
Proof.
  induction k as [|c k IH]; simpl; [done|].
  destruct (Ascii.eqb c eq_sign); simpl; [discriminate|].
  intros Hk. by rewrite IH.
Qed.

(** A [--tag] value is kept exactly when it reads [key=value] with a key of
    one byte and no further equals sign. *)
Lemma parse_tag_Ok (tagFlag k v : string) :
  parse_tag tagFlag = Ok (k, v) <->
  tagFlag = k +:+ "=" +:+ v /\ String.length k = 1%nat
  /\ eq_free k = true /\ eq_free v = true.
Proof.
  unfold parse_tag. split.
  - destruct (Split_eq tagFlag) as [|k' [|v' [|]]] eqn:Hs; try discriminate.
    destruct (Nat.eqb_spec (String.length k') 1); [|discriminate].
    intros [= -> ->]. apply Split_eq_two in Hs as (? & ? & ?). done.
  - intros (-> & Hlen & Hk & Hv).
    rewrite Split_eq_join, (Split_eq_free v) by done.
    by rewrite Hlen.
Qed.

Lemma parse_tag_not_Panic (tagFlag : string) : parse_tag tagFlag <> Panic.
Proof.
  unfold parse_tag. repeat case_match; discriminate.
Qed.

Lemma parse_tags_Ok (tagFlags : list string) (generic : list (string * string)) :
  parse_tags tagFlags = Ok generic ->
  Forall2 (fun tagFlag t => tagFlag = t.1 +:+ "=" +:+ t.2 /\ String.length t.1 = 1%nat)
          tagFlags generic.
Proof.
  revert generic. induction tagFlags as [|s l IH]; intros generic; simpl.
  - intros [= <-]. constructor.
  - destruct (parse_tag s) as [[k v]| |] eqn:Hs; simpl; try discriminate.
    destruct (parse_tags l) as [ts| |]; simpl; try discriminate.
    intros [= <-]. constructor; [|by apply IH].
    apply parse_tag_Ok in Hs as (? & ? & _). done.
Qed.

Lemma add_tag_lookup (m0 : TagMap) (t : string * string) :
  exists m', add_tag (Some m0) t = Ok (Some m')
    /\ forall k, m' !! k = if decide (t.1 = k)
                           then Some (default [] (m0 !! k) ++ [t.2])
                           else m0 !! k.
Proof.
  unfold add_tag. eexists. split; [reflexivity|].
  intros k. destruct (m0 !! t.1) as [vs|] eqn:Hm; case_decide; subst;
    rewrite ?lookup_insert_eq, ?lookup_insert_ne by done;
    rewrite ?Hm; simpl; try done.
Qed.

Lemma add_tags_lookup (ts : list (string * string)) (m0 : TagMap) :
  exists m', add_tags (Some m0) ts = Ok (Some m')
    /\ forall k, m' !! k = match values_of k ts with
                           | [] => m0 !! k
                           | vs => Some (default [] (m0 !! k) ++ vs)
                           end.
Proof.
  revert m0. induction ts as [|t ts IH]; intros m0; cbn [add_tags values_of].
  - by exists m0.
  - destruct (add_tag_lookup m0 t) as (m1 & -> & H1). cbn [bind].
    destruct (IH m1) as (m' & -> & H'). exists m'. split; [done|].
    intros k. rewrite H', H1. case_decide; simpl.
    + destruct (values_of k ts); simpl; [done|]. by rewrite <- app_assoc.
    + done.
Qed.

(** The tag step never writes into a nil map: it succeeds whenever the
    [--tag] values are well formed, and appends to every key the values
    given for it. *)
Lemma apply_tags_spec (c : Flags) (f : Filter) (tags : list (string * string)) :
  collect_tags c = Ok tags ->
  exists m, apply_tags c f = Ok (with_Tags f m)
    /\ forall k, tag_lookup m k = match values_of k tags with
                                  | [] => tag_lookup (Tags f) k
                                  | vs => Some (default [] (tag_lookup (Tags f) k) ++ vs)
                                  end.
Proof.
  intros Hc. unfold apply_tags. rewrite Hc. cbn [bind].
  destruct tags as [|t tags].
  - exists (Tags f). split; [by destruct (Tags f)|]. done.
  - destruct (Tags f) as [m0|] eqn:Hm.
    + rewrite Hm. destruct (add_tags_lookup (t :: tags) m0) as (m' & -> & H').
      exists (Some m'). split; [done|]. intros k. simpl. apply H'.
    + cbn [Tags with_Tags].
      destruct (add_tags_lookup (t :: tags) ∅) as (m' & -> & H').
      exists (Some m'). split; [done|]. intros k. simpl tag_lookup.
      rewrite H', lookup_empty. done.
Qed.

Lemma apply_bounds_Tags (c : Flags) (f : Filter) :
  Tags (apply_limit c (apply_times c f)) = Tags f.
Proof.
  unfold apply_limit, apply_times.
  destruct (negb _), (IsSet_limit c), (flag_since c), (flag_until c); done.
Qed.

(** The builder on well-formed tags: it succeeds, and every key holds the
    base values followed by the new ones. *)
Lemma build_tags_spec
    (c : Flags) (base : Filter) (generic : list (string * string)) :
  parse_tags (flag_tag c) = Ok generic ->
  exists f, build c base = Ok f
       /\ forall k, tag_lookup (Tags f) k
                    = match new_values c generic k with
                      | [] => tag_lookup (Tags base) k
                      | vs => Some (default [] (tag_lookup (Tags base) k) ++ vs)
                      end.
Proof.
  intros Hg.
  assert (Hc : collect_tags c = Ok (generic ++ map (fun v => ("e", v)) (flag_e c)
                                  ++ map (fun v => ("p", v)) (flag_p c)
                                  ++ map (fun v => ("d", v)) (flag_d c))).
  { unfold collect_tags. by rewrite Hg. }
  destruct (apply_tags_spec c (apply_lists c base) _ Hc) as (m & Hm & Hk).
  unfold build. rewrite Hm. cbn [bind]. eexists. split; [reflexivity|].
  intros k. rewrite apply_bounds_Tags. cbn [Tags with_Tags].
  rewrite Hk. destruct (apply_lists_frame c base) as (-> & _).
  unfold new_values. by rewrite !values_of_app, !values_of_shortcut.
Qed.

(** C3: with well-formed [--tag] values the builder succeeds, and under
    every key the filter holds what the base filter had, followed by the
    values the flags give for that key in encounter order: the [--tag]
    values in flag order, then the [-e], the [-p] and the [-d] values.  A
    key without a new value is left as the base filter has it.  So [t=spam]
    then [t=spam2] on a line without [#t] yields [["spam"; "spam2"]] under
    [t] (see the witness). *)
Theorem tag_overrides_merge_in_encounter_order
    (c : Flags) (base : Filter) (generic : list (string * string)) :
  parse_tags (flag_tag c) = Ok generic ->
  Forall2 (fun tagFlag t => tagFlag = t.1 +:+ "=" +:+ t.2 /\ String.length t.1 = 1%nat)
          (flag_tag c) generic
  /\ collect_tags c = Ok (generic ++ map (fun v => ("e", v)) (flag_e c)
                                  ++ map (fun v => ("p", v)) (flag_p c)
                                  ++ map (fun v => ("d", v)) (flag_d c))
  /\ exists f, build c base = Ok f
       /\ forall k, tag_lookup (Tags f) k
                    = match new_values c generic k with
                      | [] => tag_lookup (Tags base) k
                      | vs => Some (default [] (tag_lookup (Tags base) k) ++ vs)
                      end.
Proof.
  intros Hg. split; [by apply parse_tags_Ok|].
  split; [unfold collect_tags; by rewrite Hg|].
  by apply build_tags_spec.
Qed.

Lemma tag_overrides_merge_in_encounter_order_witness :
  let c := with_flag_tag no_flags ["t=spam"; "t=spam2"] in
  parse_tags (flag_tag c) = Ok [("t", "spam"); ("t", "spam2")]
  /\ exists f, build c empty_filter = Ok f
       /\ tag_lookup (Tags f) "t" = Some ["spam"; "spam2"]
       /\ tag_lookup (Tags f) "e" = None.
Proof.
  split; [reflexivity|].
  destruct (tag_overrides_merge_in_encounter_order
              (with_flag_tag no_flags ["t=spam"; "t=spam2"]) empty_filter
              [("t", "spam"); ("t", "spam2")] eq_refl) as (_ & _ & f & Hf & Hk).
  exists f. split; [exact Hf|].
  split; rewrite Hk; reflexivity.
Defined.

(** The order across the flags, with a base filter that has the key. *)
Example tag_order_across_flags :
  let c := mkFlags [] [] [] ["e=1"; "p=2"; "e=3"] ["4"; "5"] ["6"] ["7"]
                   None None None EmptyString false false 0 0 false false false in
  let base := with_Tags empty_filter (Some {[ "e" := ["0"] ]}) in
  exists f, build c base = Ok f
    /\ tag_lookup (Tags f) "e" = Some ["0"; "1"; "3"; "4"; "5"]
    /\ tag_lookup (Tags f) "p" = Some ["2"; "6"]
    /\ tag_lookup (Tags f) "d" = Some ["7"].
Proof.
  intros c base.
  destruct (build_tags_spec c base
              [("e", "1"); ("p", "2"); ("e", "3")] eq_refl) as (f & Hf & Hk).
  exists f. split; [exact Hf|]. rewrite !Hk. repeat split; reflexivity.
Qed.

Lemma parse_tags_not_Panic (tagFlags : list string) : parse_tags tagFlags <> Panic.
Proof.
  induction tagFlags as [|s l IH]; simpl; [done|].
  pose proof (parse_tag_not_Panic s) as Hs.
  destruct (parse_tag s); simpl; [|done|done].
  destruct (parse_tags l); simpl; [done|done|exact IH].
Qed.

(** The guard of line 235 is enough: the builder never panics. *)
Lemma build_not_Panic (c : Flags) (base : Filter) : build c base <> Panic.
Proof.
  unfold build.
  destruct (collect_tags c) as [tags|msg|] eqn:Hc.
  - destruct (apply_tags_spec c (apply_lists c base) tags Hc) as (m & -> & _). done.
  - unfold apply_tags. by rewrite Hc.
  - unfold collect_tags in Hc.
    pose proof (parse_tags_not_Panic (flag_tag c)) as Hp.
    destruct (parse_tags (flag_tag c)); simpl in Hc; done.
Qed.

(** * Properties of the line loop and of the action *)

Lemma parse_tag_Error (tagFlag : string) :
  well_formed_tag tagFlag = false -> parse_tag tagFlag = Error (invalid_tag_msg tagFlag).
Proof.
  unfold well_formed_tag, parse_tag. repeat case_match; done.
Qed.

Lemma parse_tags_malformed (tagFlags : list string) (t : string) :
  first_malformed tagFlags = Some t -> parse_tags tagFlags = Error (invalid_tag_msg t).
Proof.
  induction tagFlags as [|s l IH]; simpl; [done|].
  destruct (well_formed_tag s) eqn:Hs.
  - intros Hl. rewrite (IH Hl). unfold well_formed_tag in Hs.
    destruct (parse_tag s); done.
  - intros [= <-]. by rewrite parse_tag_Error.
Qed.

Lemma parse_tags_well_formed (tagFlags : list string) :
  first_malformed tagFlags = None -> exists generic, parse_tags tagFlags = Ok generic.
Proof.
  induction tagFlags as [|s l IH]; simpl; [by eexists|].
  unfold well_formed_tag. destruct (parse_tag s) as [t| |] eqn:Hs; try done.
  intros Hl. destruct (IH Hl) as [g ->]. by eexists.
Qed.

Lemma build_malformed (c : Flags) (base : Filter) (t : string) :
  first_malformed (flag_tag c) = Some t -> build c base = Error (invalid_tag_msg t).
Proof.
  intros Ht. unfold build, apply_tags, collect_tags.
  by rewrite (parse_tags_malformed _ _ Ht).
Qed.

Lemma build_well_formed (c : Flags) (base : Filter) :
  first_malformed (flag_tag c) = None -> exists f, build c base = Ok f.
Proof.
  intros Ht. destruct (parse_tags_well_formed _ Ht) as [g Hg].
  destruct (build_tags_spec c base g Hg) as (f & Hf & _).
  by exists f.
Qed.

Section ActionProperties.
Context `{Environment}.

Lemma read_line_invalid (line : string) :
  invalid_json line = true <-> read_line line = None.
Proof.
  unfold invalid_json, read_line. case_bool_decide; simpl; [done|].
  destruct (Unmarshal line) as [f|]; simpl; split; done.
Qed.

Lemma built_filter_well_formed (c : Flags) (line : string) :
  first_malformed (flag_tag c) = None ->
  built_filter c line = None <-> invalid_json line = true.
Proof.
  intros Ht. rewrite read_line_invalid. unfold built_filter.
  destruct (read_line line) as [base|]; [|done].
  destruct (build_well_formed c base Ht) as [f ->]. done.
Qed.

(** With well-formed tags the loop carries every line through: a line that
    is not read adds nothing and raises the error flag, every other line
    adds its own effects. *)
Lemma line_loop_well_formed (c : Flags) (relayUrls lines : list string) (lineError : bool) :
  first_malformed (flag_tag c) = None ->
  line_loop c relayUrls lines lineError
  = (flat_map (line_effects c relayUrls) lines,
     Ok (lineError || existsb invalid_json lines)).
Proof.
  intros Ht. revert lineError. induction lines as [|l lines IH]; intros b;
    simpl; unfold lineProcessingError.
  - by rewrite orb_false_r.
  - unfold line_effects at 1, built_filter.
    destruct (read_line l) as [base|] eqn:Hl.
    + destruct (build_well_formed c base Ht) as [f ->]. rewrite IH. simpl.
      assert (invalid_json l = false) as ->; [|done].
      destruct (invalid_json l) eqn:Hi; [|done].
      apply read_line_invalid in Hi. congruence.
    + rewrite IH. simpl. apply read_line_invalid in Hl as ->.
      by rewrite orb_true_r.
Qed.

(** With a malformed tag the loop does nothing for any line, and returns
    the error at the first line that is read. *)
Lemma line_loop_malformed (c : Flags) (relayUrls lines : list string) (lineError : bool)
    (t : string) :
  first_malformed (flag_tag c) = Some t ->
  line_loop c relayUrls lines lineError
  = ([], if forallb invalid_json lines
         then Ok (lineError || negb (bool_decide (lines = [])))
         else Error (invalid_tag_msg t)).
Proof.
  intros Ht. revert lineError. induction lines as [|l lines IH]; intros b;
    simpl; unfold lineProcessingError.
  - by rewrite orb_false_r.
  - destruct (read_line l) as [base|] eqn:Hl.
    + rewrite (build_malformed c base t Ht).
      assert (invalid_json l = false) as ->; [|done].
      destruct (invalid_json l) eqn:Hi; [|done].
      apply read_line_invalid in Hi. congruence.
    + rewrite IH. apply read_line_invalid in Hl as ->. simpl.
      rewrite orb_true_r. by destruct (forallb invalid_json lines).
Qed.

(** The error flag has no effect on what the loop does. *)
Lemma line_loop_flag (c : Flags) (relayUrls lines : list string) (lineError : bool) :
  (line_loop c relayUrls lines true).1 = (line_loop c relayUrls lines lineError).1
  /\ (line_loop c relayUrls lines true).2
     = match (line_loop c relayUrls lines lineError).2 with
       | Ok _ => Ok true
       | r => r
       end.
Proof.
  revert lineError. induction lines as [|l lines IH]; intros b;
    simpl; unfold lineProcessingError; [done|].
  destruct (read_line l) as [base|].
  - destruct (build c base); simpl; [|done|done].
    destruct (IH b) as [-> ->]. done.
  - destruct (IH true) as [_ Hr]. split; [done|].
    rewrite Hr at 1. by destruct (line_loop c relayUrls lines true).2.
Qed.

(** A line that is not read is passed over: the loop does for the other
    lines what it does without it, and ends with the error flag raised
    unless an iteration returns. *)
Lemma line_loop_skip (c : Flags) (relayUrls pre post : list string) (bad : string)
    (lineError : bool) :
  read_line bad = None ->
  (line_loop c relayUrls (pre ++ bad :: post) lineError).1
  = (line_loop c relayUrls (pre ++ post) lineError).1
  /\ (line_loop c relayUrls (pre ++ bad :: post) lineError).2
     = match (line_loop c relayUrls (pre ++ post) lineError).2 with
       | Ok _ => Ok true
       | r => r
       end.
Proof.
  intros Hbad. revert lineError. induction pre as [|l pre IH]; intros b;
    simpl; unfold lineProcessingError.
  - rewrite Hbad. apply line_loop_flag.
  - destruct (read_line l) as [base|].
    + destruct (build c base); simpl; [|done|done].
      destruct (IH b) as [-> ->]. done.
    + destruct (IH true) as [-> ->]. done.
Qed.

End ActionProperties.

Lemma first_malformed_Some (tagFlags : list string) (t : string) :
  first_malformed tagFlags = Some t -> t ∈ tagFlags /\ well_formed_tag t = false.
Proof.
  induction tagFlags as [|s l IH]; simpl; [done|].
  destruct (well_formed_tag s) eqn:Hs.
  - intros Hl. destruct (IH Hl). split; [by right|done].
  - intros [= <-]. split; [by left|done].
Qed.

Lemma first_malformed_None (tagFlags : list string) :
  first_malformed tagFlags = None <-> Forall (fun s => well_formed_tag s = true) tagFlags.
Proof.
  induction tagFlags as [|s l IH]; simpl; [done|].
  rewrite Forall_cons. destruct (well_formed_tag s); [|split; [done|by intros [? _]]].
  rewrite IH. tauto.
Qed.

Lemma first_malformed_exists (tagFlags : list string) (s : string) :
  s ∈ tagFlags -> well_formed_tag s = false -> is_Some (first_malformed tagFlags).
Proof.
  intros Hin Hs. destruct (first_malformed tagFlags) eqn:Hf; [done|].
  apply first_malformed_None in Hf. rewrite Forall_forall in Hf.
  specialize (Hf s Hin). congruence.
Qed.

(** A tag is well formed exactly when it reads [key=value] with a key of
    one byte and a single equals sign. *)
Lemma well_formed_tag_spec (tagFlag : string) :
  well_formed_tag tagFlag = true <->
  exists k v, tagFlag = k +:+ "=" +:+ v /\ String.length k = 1%nat
              /\ eq_free k = true /\ eq_free v = true.
Proof.
  unfold well_formed_tag. split.
  - destruct (parse_tag tagFlag) as [[k v]| |] eqn:Hp; try done.
    intros _. exists k, v. by apply parse_tag_Ok.
  - intros (k & v & Hkv). apply parse_tag_Ok in Hkv as ->. done.
Qed.

Section ActionClaims.
Context `{Environment}.

(** C1, as the code has it: the tag overrides belong to the invocation, not
    to a line.  When one of them is malformed, the first line that is read
    (an empty line or a valid filter) returns the error from the action:
    the invocation ends with it, nothing is printed and no subscription is
    opened for any line, and the lines after it are not looked at. *)
Theorem invalid_tag_aborts_invocation (c : Flags) (args lines : list string) (t : string) :
  first_malformed (flag_tag c) = Some t ->
  args = [] \/ connectToAllRelays args (flag_force_pre_auth c) <> [] ->
  forallb invalid_json lines = false ->
  t ∈ flag_tag c
  /\ well_formed_tag t = false
  /\ Action c args lines
     = (match args with
        | [] => []
        | _ :: _ => Connect args (flag_force_pre_auth c)
                    :: map Close (connectToAllRelays args (flag_force_pre_auth c))
        end,
        ReturnError (invalid_tag_msg t)).
Proof.
  intros Ht Hconn Hread.
  destruct (first_malformed_Some _ _ Ht) as [Hin Hbad].
  split; [done|]. split; [done|].
  unfold Action. destruct args as [|a args].
  - rewrite (line_loop_malformed c [] lines false t Ht), Hread. done.
  - destruct Hconn as [|Hconn]; [done|].
    destruct (connectToAllRelays (a :: args) (flag_force_pre_auth c)) as [|r rs] eqn:Hr; [done|].
    rewrite (line_loop_malformed c (r :: rs) lines false t Ht), Hread. done.
Qed.

(** C4: a line that is not empty and is not read as a filter is passed
    over.  The loop does for the lines before and after it what it does
    without it (with well-formed tags: every other line is carried
    through), and the invocation ends in a failure; when nothing else goes
    wrong, the failure is the exit for a line in error. *)
Theorem invalid_filter_json_aborts_line_only
    (c : Flags) (args pre post : list string) (bad : string) :
  invalid_json bad = true ->
  (forall relayUrls,
      (line_loop c relayUrls (pre ++ bad :: post) false).1
      = (line_loop c relayUrls (pre ++ post) false).1)
  /\ (first_malformed (flag_tag c) = None ->
      forall relayUrls,
        line_loop c relayUrls (pre ++ bad :: post) false
        = (flat_map (line_effects c relayUrls) pre
             ++ flat_map (line_effects c relayUrls) post, Ok true))
  /\ is_failure (Action c args (pre ++ bad :: post)).2 = true
  /\ (first_malformed (flag_tag c) = None ->
      args = [] \/ connectToAllRelays args (flag_force_pre_auth c) <> [] ->
      (Action c args (pre ++ bad :: post)).2 = ExitLineProcessingError).
Proof.
  intros Hbad. pose proof Hbad as Hread. apply read_line_invalid in Hread.
  assert (Hloop : forall relayUrls,
             (line_loop c relayUrls (pre ++ bad :: post) false).2 <> Ok false).
  { intros urls. destruct (line_loop_skip c urls pre post bad false Hread) as [_ ->].
    by destruct (line_loop c urls (pre ++ post) false).2. }
  assert (Hwf : first_malformed (flag_tag c) = None ->
          forall relayUrls,
            line_loop c relayUrls (pre ++ bad :: post) false
            = (flat_map (line_effects c relayUrls) pre
                 ++ flat_map (line_effects c relayUrls) post, Ok true)).
  { intros Ht urls. rewrite (line_loop_well_formed c urls _ false Ht).
    rewrite flat_map_app. simpl. unfold line_effects at 2.
    assert (built_filter c bad = None) as ->.
    { unfold built_filter. by rewrite Hread. }
    rewrite existsb_app. simpl. rewrite Hbad, orb_true_r. done. }
  split; [|split; [|split]].
  - intros urls. apply (line_loop_skip c urls pre post bad false Hread).
  - exact Hwf.
  - unfold Action. destruct args as [|a args].
    + specialize (Hloop []). destruct (line_loop c [] _ false).2 as [[|]| |]; done.
    + destruct (connectToAllRelays (a :: args) (flag_force_pre_auth c)) as [|r rs]; [done|].
      specialize (Hloop (r :: rs)).
      destruct (line_loop c (r :: rs) _ false).2 as [[|]| |]; done.
  - intros Ht Hconn. unfold Action. destruct args as [|a args].
    + by rewrite (Hwf Ht).
    + destruct Hconn as [|Hconn]; [done|].
      destruct (connectToAllRelays (a :: args) (flag_force_pre_auth c)) as [|r rs]; [done|].
      by rewrite (Hwf Ht).
Qed.

(** Only the check of line 179 leaves the action through [os.Exit]. *)
Lemma Action_OsExit (c : Flags) (args lines : list string) (code : Z) :
  (Action c args lines).2 = OsExit code ->
  code = 3 /\ args <> [] /\ connectToAllRelays args (flag_force_pre_auth c) = [].
Proof.
  unfold Action. destruct args as [|a args].
  - simpl. destruct (line_loop c [] lines false).2 as [[|]| |]; done.
  - destruct (connectToAllRelays (a :: args) (flag_force_pre_auth c)) as [|r rs]; simpl.
    + by intros [= <-].
    + destruct (line_loop c (r :: rs) lines false).2 as [[|]| |]; done.
Qed.

(** C5: when relay addresses are given and none of them connects, the
    action logs it and leaves through [os.Exit(3)] before the first line:
    nothing is subscribed and nothing is printed.  The exit is a
    distinguished one: an invocation that ends like this one was given
    relay addresses and connected to none. *)
Theorem no_relay_connected_is_fatal (c : Flags) (args lines : list string) :
  args <> [] ->
  connectToAllRelays args (flag_force_pre_auth c) = [] ->
  Action c args lines = ([Connect args (flag_force_pre_auth c); Log no_relays_msg], OsExit 3)
  /\ forall c' args' lines',
       (Action c' args' lines').2 = (Action c args lines).2 ->
       args' <> [] /\ connectToAllRelays args' (flag_force_pre_auth c') = [].
Proof.
  intros Hargs Hconn.
  assert (HA : Action c args lines
               = ([Connect args (flag_force_pre_auth c); Log no_relays_msg], OsExit 3)).
  { unfold Action. destruct args; [done|]. by rewrite Hconn. }
  split; [done|]. intros c' args' lines'. rewrite HA. simpl.
  intros H3. by apply Action_OsExit in H3 as (_ & ? & ?).
Qed.

(** Without relay addresses the action touches no connection. *)
Lemma no_relays_no_network (c : Flags) (lines : list string) :
  Forall (fun e => is_network e = false) (Action c [] lines).1.
Proof.
  unfold Action. cbn [fst snd].
  assert (Hfin : forall r, (finish [] r).1 = []).
  { intros [[|]| |]; done. }
  rewrite Hfin, app_nil_r.
  assert (Hloop : forall b, Forall (fun e => is_network e = false) (line_loop c [] lines b).1);
    [|apply Hloop].
  induction lines as [|l lines IH]; intros b; simpl; [done|].
  destruct (read_line l) as [base|]; [|apply IH].
  destruct (build c base); simpl; [|done|done].
  constructor; [done|apply IH].
Qed.

(** Without relay addresses and with well-formed tags the action prints
    one line for every line that is read, in order: what [filter.String()]
    gives under [--bare], and otherwise what [json.Marshal] gives for the
    envelope with the subscription id [nak], or nothing when it fails. *)
Lemma no_relays_prints_one_line_per_filter (c : Flags) (lines : list string) :
  first_malformed (flag_tag c) = None ->
  (Action c [] lines).1
  = map (fun filter =>
           Stdout (if flag_bare c then Filter_String filter
                   else default EmptyString (json_Marshal_ReqEnvelope "nak" [filter])))
        (omap (built_filter c) lines).
Proof.
  intros Ht. unfold Action. cbn [fst snd].
  rewrite (line_loop_well_formed c [] lines false Ht).
  cbn [fst snd]. assert (Hfin : forall b, (finish [] (Ok b)).1 = []) by (by intros [|]).
  rewrite Hfin, app_nil_r.
  induction lines as [|l lines IH]; simpl; [done|].
  unfold line_effects at 1. destruct (built_filter c l) as [f|]; simpl; [|done].
  rewrite IH. by destruct (json_Marshal_ReqEnvelope "nak" [f]).
Qed.

(** C9: the action does not always print the envelope.  Line 279 drops the
    error of [json.Marshal]: for a line whose filter is built and whose
    envelope cannot be marshalled, the action without relays and without
    [--bare] prints an empty line, not a JSON value, and still returns
    nil. *)
Theorem envelope_marshal_error_prints_empty_line (c : Flags) (line : string) (filter : Filter) :
  flag_bare c = false ->
  built_filter c line = Some filter ->
  json_Marshal_ReqEnvelope "nak" [filter] = None ->
  Action c [] [line] = ([Stdout EmptyString], ReturnNil).
Proof.
  intros Hbare Hbuilt Hfail. unfold Action. cbn [line_loop].
  unfold built_filter in Hbuilt.
  destruct (read_line line) as [base|]; [|done].
  destruct (build c base) as [f| |]; try done.
  injection Hbuilt as ->. unfold deliver. rewrite Hbare, Hfail. reflexivity.
Qed.

(** C10: [--paginate] decides first: with it the strategy is the paginated
    one whatever [--stream] says, without it [--stream] gives the streaming
    one, and with neither it is the one that closes on EOSE.  Every
    subscription of the invocation is opened with that strategy. *)
Theorem paginate_takes_precedence_over_stream
    (c : Flags) (args lines : list string) (url : string) (relayUrls : list string)
    (filter : Filter) :
  select_fn c = match flag_paginate c, flag_stream c with
                | true, _ => Paginate (flag_paginate_interval c) (flag_paginate_global_limit c)
                | false, true => Stream
                | false, false => Eose
                end
  /\ deliver c (url :: relayUrls) filter
     = Subscribe (select_fn c) (url :: relayUrls) filter
       :: map StdoutEvent (events (select_fn c) (url :: relayUrls) filter)
  /\ Forall (subscribes_with (select_fn c)) (Action c args lines).1.
Proof.
  split; [unfold select_fn; by destruct (flag_paginate c), (flag_stream c)|].
  split; [done|].
  assert (Hdel : forall urls f, Forall (subscribes_with (select_fn c)) (deliver c urls f)).
  { intros [|u urls] f; simpl; [by repeat constructor|].
    constructor; [done|]. by apply Forall_map, Forall_true. }
  assert (Hloop : forall urls b,
             Forall (subscribes_with (select_fn c)) (line_loop c urls lines b).1).
  { intros urls. induction lines as [|l lines IH]; intros b; simpl; [done|].
    destruct (read_line l) as [base|]; [|apply IH].
    destruct (build c base); simpl; [|done|done].
    apply Forall_app. split; [apply Hdel|apply IH]. }
  assert (Hfin : forall urls r, Forall (subscribes_with (select_fn c)) (finish urls r).1).
  { intros urls [[|]| |]; simpl; try done; by apply Forall_map, Forall_true. }
  unfold Action. destruct args as [|a args]; cbn [fst snd].
  - apply Forall_app. split; [apply Hloop|apply Hfin].
  - destruct (connectToAllRelays (a :: args) (flag_force_pre_auth c)) as [|r rs]; cbn [fst snd].
    + by repeat constructor.
    + constructor; [done|]. apply Forall_app. split; [apply Hloop|apply Hfin].
Qed.

End ActionClaims.

(** ** The claims of the action on the sample world *)

Lemma invalid_tag_aborts_invocation_witness :
  first_malformed (flag_tag (with_flag_tag no_flags ["t=ok"; "bad"; "worse"])) = Some "bad"
  /\ Action (H := sample_env) (with_flag_tag no_flags ["t=ok"; "bad"; "worse"]) []
            ["oops"; "{}"; EmptyString]
     = ([], ReturnError "invalid --tag 'bad'").
Proof.
  split; [reflexivity|].
  destruct (invalid_tag_aborts_invocation (H := sample_env)
              (with_flag_tag no_flags ["t=ok"; "bad"; "worse"]) []
              ["oops"; "{}"; EmptyString] "bad"
              eq_refl (or_introl eq_refl) eq_refl) as (_ & _ & HA).
  exact HA.
Defined.

(** C1 as stated fails: with the malformed tag [bad], three piped filters
    give no output at all, whether the error is met on the first line or,
    after a line that is not read, on the second; the third line is never
    looked at.  With well-formed flags the same three lines are all
    printed. *)
Lemma invalid_tag_blocks_other_lines :
  Action (H := sample_env) (with_flag_tag no_flags ["bad"]) [] ["{}"; "{}"; "{}"]
  = ([], ReturnError "invalid --tag 'bad'")
  /\ Action (H := sample_env) (with_flag_tag no_flags ["bad"]) [] ["oops"; "{}"; "{}"]
     = ([], ReturnError "invalid --tag 'bad'")
  /\ length (Action (H := sample_env) no_flags [] ["{}"; "{}"; "{}"]).1 = 3%nat.
Proof. repeat split; reflexivity. Qed.

Lemma invalid_filter_json_aborts_line_only_witness :
  invalid_json (H := sample_env) "oops" = true
  /\ (Action (H := sample_env) no_flags [] ["{}"; "oops"; EmptyString]).2
     = ExitLineProcessingError
  /\ length (line_loop (H := sample_env) no_flags [] ["{}"; "oops"; EmptyString] false).1
     = 2%nat.
Proof.
  split; [reflexivity|].
  destruct (invalid_filter_json_aborts_line_only (H := sample_env)
              no_flags [] ["{}"] [EmptyString] "oops" eq_refl) as (_ & Hl & _ & HA).
  split; [exact (HA eq_refl (or_introl eq_refl))|].
  exact (f_equal (fun r => length r.1) (Hl eq_refl [])).
Defined.

Lemma no_relay_connected_is_fatal_witness :
  Action (H := sample_env) no_flags ["wss://down.example"] ["{}"]
  = ([Connect ["wss://down.example"] false; Log no_relays_msg], OsExit 3).
Proof.
  destruct (no_relay_connected_is_fatal (H := sample_env) no_flags
              ["wss://down.example"] ["{}"]) as [HA _];
    [discriminate | reflexivity | exact HA].
Defined.

Lemma envelope_marshal_error_prints_empty_line_witness :
  let c := with_flag_tag no_flags [quote +:+ "=x"] in
  first_malformed (flag_tag c) = None
  /\ built_filter (H := sample_env) c EmptyString
     = Some (with_Tags empty_filter (Some {[ quote := ["x"] ]}))
  /\ Action (H := sample_env) c [] [EmptyString] = ([Stdout EmptyString], ReturnNil).
Proof.
  split; [reflexivity|]. split; [reflexivity|].
  exact (envelope_marshal_error_prints_empty_line (H := sample_env)
           (with_flag_tag no_flags [quote +:+ "=x"]) EmptyString
           (with_Tags empty_filter (Some {[ quote := ["x"] ]}))
           eq_refl eq_refl eq_refl).
Defined.

(** On the sample world a filter that can be marshalled is printed in its
    envelope, and as it is under [--bare]. *)
Example no_relays_print_on_sample :
  (Action (H := sample_env) no_flags [] ["{}"; "oops"; EmptyString]).1
  = [Stdout "[REQ,nak,{authors:}]"; Stdout "[REQ,nak,{authors:}]"].
Proof. reflexivity. Qed.

(** With both flags the subscription is the paginated one; with relays the
    lines are sent, not printed. *)
Example paginate_and_stream_on_sample :
  Action (H := sample_env) (with_flag_modes no_flags true true) ["wss://a.example"] ["{}"]
  = ([Connect ["wss://a.example"] false;
      Subscribe (Paginate 0 0) ["wss://a.example"] (with_Tags empty_filter (Some ∅));
      StdoutEvent (H := sample_env) "wss://a.example";
      Close "wss://a.example"], ReturnNil).
Proof. reflexivity. Qed.

(** * Properties of the authentication handler *)

Section AuthClaims.
Context `{Signer}.

(** C6: when neither [--auth] nor [--force-pre-auth] is given, the handler
    returns its error at once: it asks for no key and signs nothing.  The
    challenge then goes straight to [Refused], and the triggering request is
    not sent again. *)
Theorem auth_not_opted_in_is_refused (c : Flags) (evt : AuthEvent) (alreadyResent : bool) :
  flag_auth c = false ->
  flag_force_pre_auth c = false ->
  authHandler c evt = ([], Some "auth not authorized")
  /\ on_challenge c evt alreadyResent
     = mkChallengeResult [ChallengeReceived; Refused] [] 0.
Proof.
  intros Ha Hf.
  assert (Hh : authHandler c evt = ([], Some "auth not authorized")).
  { unfold authHandler. by rewrite Ha, Hf. }
  split; [done|]. unfold on_challenge. rewrite Hh. by destruct alreadyResent.
Qed.

(** With either flag the handler starts by gathering the key, and a first
    challenge goes through [Signing]. *)
Lemma auth_opted_in_signs (c : Flags) (evt : AuthEvent) :
  flag_auth c = true \/ flag_force_pre_auth c = true ->
  exists effs, (authHandler c evt).1 = GatherKey :: effs
    /\ exists final, auth_path (on_challenge c evt false) = [ChallengeReceived; Signing; final].
Proof.
  intros Hopt.
  assert (Hgate : negb (flag_auth c) && negb (flag_force_pre_auth c) = false).
  { destruct Hopt as [-> | ->]; [done|by rewrite andb_false_r]. }
  unfold on_challenge, authHandler. rewrite Hgate.
  destruct (gatherSecretKeyOrBunkerFromArguments c) as [[sec [b|]]|err]; simpl.
  - destruct (Bunker_GetPublicKey b); simpl; eexists; (split; [done|]);
      try destruct (Bunker_SignEvent b evt); by eexists.
  - eexists; split; [done|]. destruct (Event_Sign evt sec); by eexists.
  - eexists; split; [done|]. by eexists.
Qed.

End AuthClaims.

Lemma auth_not_opted_in_is_refused_witness :
  authHandler (H := sample_signer) no_flags "challenge" = ([], Some "auth not authorized")
  /\ resends (on_challenge (H := sample_signer) no_flags "challenge" false) = 0%nat.
Proof.
  destruct (auth_not_opted_in_is_refused (H := sample_signer) no_flags "challenge" false
              eq_refl eq_refl) as [Hh Hc].
  split; [exact Hh|]. rewrite Hc. reflexivity.
Defined.

(** * Properties of the pagination controller *)

Lemma minTimestamp_least (round : list Z) (minTs : Z) :
  minTimestamp round = Some minTs ->
  minTs ∈ round /\ Forall (fun t => minTs <= t) round.
Proof.
  revert minTs. induction round as [|t round IH]; intros m; simpl; [done|].
  destruct (minTimestamp round) as [m'|] eqn:Hm.
  - intros [= <-]. destruct (IH m' eq_refl) as [Hin Hle]. split.
    + destruct (Z.min_spec t m') as [[_ ->]|[_ ->]]; [by left|by right].
    + constructor; [lia|]. eapply Forall_impl; [exact Hle|]. simpl. lia.
  - intros [= <-]. destruct round; [|simpl in Hm; by destruct (minTimestamp round)].
    split; [by left|]. by repeat constructor.
Qed.

Lemma descending_below (p : Z) (us : list Z) :
  descending (Some p) us -> Forall (fun u => u < p) us.
Proof.
  revert p. induction us as [|u us IH]; intros p; simpl; [done|].
  intros [Hu Hrest]. constructor; [lia|].
  eapply Forall_impl; [apply (IH u Hrest)|]. simpl. lia.
Qed.

Lemma descending_NoDup (prev : option Z) (us : list Z) :
  descending prev us -> NoDup us.
Proof.
  revert prev. induction us as [|u us IH]; intros prev; simpl; [constructor|].
  intros [_ Hrest]. constructor; [|by apply (IH (Some u))].
  intros Hin. apply descending_below in Hrest.
  rewrite Forall_forall in Hrest. specialize (Hrest u Hin). lia.
Qed.

Lemma next_until_decreases (u minTs : Z) : next_until (Some u) minTs <= u - 1.
Proof. unfold next_until. lia. Qed.

Lemma paginate_follows_rule (limit globalLimit since : option Z) (rounds : list (list Z))
    (st : PaginationState) :
  let us := (paginate limit globalLimit since st rounds).1 in
  follows_rule (currentUntil st) rounds us
  /\ descending (currentUntil st) us
  /\ Forall (fun u => below since u = false) us.
Proof.
  revert st. induction rounds as [|round rounds IH]; intros st; simpl; [done|].
  destruct (minTimestamp round) as [minTs|] eqn:Hm; simpl; [|done].
  destruct (reached limit _); simpl; [done|].
  destruct (reached globalLimit _); simpl; [done|].
  destruct (below since _) eqn:Hb; simpl; [done|].
  destruct (IH (mkPaginationState (Some (next_until (currentUntil st) minTs))
                                  (totalReceived st + Z.of_nat (length round))))
    as (Hr & Hd & Hs).
  simpl in Hr, Hd. repeat split; try done.
  - exists minTs. split; [done|]. split; [|done].
    by apply minTimestamp_least.
  - destruct (currentUntil st) as [u|]; [apply next_until_decreases|done].
  - by constructor.
Qed.

Lemma follows_rule_obeys (prev : option Z) (rounds : list (list Z)) (us : list Z) :
  follows_rule prev rounds us -> obeys_rule prev rounds us.
Proof.
  revert prev rounds. induction us as [|u us IH]; intros prev rounds;
    [by destruct rounds|].
  destruct rounds as [|round rounds]; [done|]. simpl.
  intros [(m & Hm & Hle & ->) Hrest]. split; [|by apply IH].
  exists m. split; [by apply minTimestamp_least|]. split; [done|].
  by destruct prev.
Qed.

(** When the pagination stops for [since], the [until] that the rule gives
    next is below [since]. *)
Lemma paginate_since_reached (limit globalLimit since : option Z) (rounds : list (list Z))
    (st : PaginationState) :
  (paginate limit globalLimit since st rounds).2 = SinceReached ->
  exists s u, since = Some s /\ u < s
    /\ obeys_rule (currentUntil st) rounds
                  ((paginate limit globalLimit since st rounds).1 ++ [u]).
Proof.
  revert st. induction rounds as [|round rounds IH]; intros st; simpl; [done|].
  destruct (minTimestamp round) as [minTs|] eqn:Hm; simpl; [|done].
  destruct (reached limit _); simpl; [done|].
  destruct (reached globalLimit _); simpl; [done|].
  assert (Hstep : exists m, m ∈ round /\ Forall (fun t => m <= t) round
            /\ next_until (currentUntil st) minTs
               = match currentUntil st with
                 | Some p => Z.min (m - 1) (p - 1)
                 | None => m - 1
                 end).
  { exists minTs. split; [by apply minTimestamp_least|].
    split; [by apply minTimestamp_least|]. by destruct (currentUntil st). }
  destruct (below since _) eqn:Hb; simpl.
  - intros _. destruct since as [s|]; [|done]. simpl in Hb.
    exists s, (next_until (currentUntil st) minTs).
    split; [done|]. split; [lia|]. simpl. split; [exact Hstep|by destruct rounds].
  - intros Hstop.
    destruct (IH (mkPaginationState (Some (next_until (currentUntil st) minTs))
                                    (totalReceived st + Z.of_nat (length round))) Hstop)
      as (s & u & Hs & Hu & Hrule).
    exists s, u. split; [done|]. split; [done|]. simpl. split; [exact Hstep|exact Hrule].
Qed.

(** C8: the [until] of every further round is [min(minTimestamp - 1,
    previousUntil - 1)] for the round before it; so the values go down by
    at least one from round to round, none comes twice, and none is below
    [since]; when the pagination stops for [since], the value that the rule
    gives next is below it.  The events stamped 100, 90, 90 and 80 of the
    example (the two stamped 90 come in one round), with [since = 70], are
    followed by the [until] values 99, 89 and 79; a further round whose
    next [until] is below 70 stops the pagination. *)
Theorem pagination_until_strictly_decreases
    (limit globalLimit since : option Z) (st : PaginationState) (rounds : list (list Z)) :
  let run := paginate limit globalLimit since st rounds in
  obeys_rule (currentUntil st) rounds run.1
  /\ descending (currentUntil st) run.1
  /\ NoDup run.1
  /\ (forall s, since = Some s -> Forall (fun u => s <= u) run.1)
  /\ (run.2 = SinceReached ->
      exists s u, since = Some s /\ u < s
                  /\ obeys_rule (currentUntil st) rounds (run.1 ++ [u]))
  /\ paginate None None (Some 70) (mkPaginationState None 0) [[100]; [90; 90]; [80]]
     = ([99; 89; 79], EmptyRound)
  /\ paginate None None (Some 70) (mkPaginationState None 0)
              [[100]; [90; 90]; [80]; [71; 65]]
     = ([99; 89; 79], SinceReached).
Proof.
  destruct (paginate_follows_rule limit globalLimit since rounds st) as (Hr & Hd & Hs).
  split; [by apply follows_rule_obeys|]. split; [done|].
  split; [by apply (descending_NoDup (currentUntil st))|].
  split; [|split; [apply paginate_since_reached|by split]].
  intros s ->. eapply Forall_impl; [exact Hs|]. simpl. intros u Hu.
  destruct (Z.ltb_spec u s); [done|lia].
Qed.

(** When every round brings one event, the rounds stamped 100, 90, 90 and
    80 are followed by four [until] values: the third round does not bring
    the minimum down and still lowers [until] by one. *)
Lemma pagination_example_untils :
  (paginate None None (Some 70) (mkPaginationState None 0) [[100]; [90]; [90]; [80]]).1
  = [99; 89; 88; 79]
  /\ (paginate None None (Some 70) (mkPaginationState None 0) [[100]; [90]; [90]; [80]]).1
     <> [99; 89; 79].
Proof. split; [reflexivity|discriminate]. Qed.

(** The values 99, 89 and 79 are those of three rounds, when the two events
    stamped 90 come in the same round. *)
Example pagination_three_rounds :
  paginate None None (Some 70) (mkPaginationState None 0) [[100]; [90; 90]; [80]]
  = ([99; 89; 79], EmptyRound).
Proof. reflexivity. Qed.

(** The other stop conditions. *)
Example pagination_stops_at_limit :
  paginate (Some 3) None None (mkPaginationState (Some 200) 0) [[100; 95]; [90]; [80]]
  = ([94], LimitReached).
Proof. reflexivity. Qed.

Example pagination_stops_at_global_limit :
  paginate None (Some 2) None (mkPaginationState None 0) [[100; 95]; [90]]
  = ([], GlobalLimitReached).
Proof. reflexivity. Qed.

Example pagination_stops_on_empty_round :
  paginate None None None (mkPaginationState None 0) [[100]; []; [80]]
  = ([99], EmptyRound).
Proof. reflexivity. Qed.

(** * Further properties of the filter builder *)

Lemma build_Ok_shape (c : Flags) (base f : Filter) :
  build c base = Ok f ->
  exists m, apply_tags c (apply_lists c base) = Ok (with_Tags (apply_lists c base) m)
            /\ f = apply_limit c (apply_times c (with_Tags (apply_lists c base) m)).
Proof.
  unfold build. destruct (apply_tags c (apply_lists c base)) as [g| |] eqn:Hg;
    simpl; try discriminate.
  intros [= <-]. destruct (apply_tags_Ok _ _ _ Hg) as [m ->]. by exists m.
Qed.

Lemma apply_bounds_lists (c : Flags) (g : Filter) :
  Authors (apply_limit c (apply_times c g)) = Authors g
  /\ IDs (apply_limit c (apply_times c g)) = IDs g
  /\ Kinds (apply_limit c (apply_times c g)) = Kinds g
  /\ Search (apply_limit c (apply_times c g)) = Search g.
Proof.
  unfold apply_limit, apply_times.
  destruct (negb _), (IsSet_limit c), (flag_since c), (flag_until c); done.
Qed.

(** X1: the author, id and kind flags are appended, in flag order, after
    what the base filter has; a search flag that is not empty replaces the
    search string of the base filter, an empty one keeps it. *)
Theorem list_overrides_append (c : Flags) (base f : Filter) :
  build c base = Ok f ->
  Authors f = Authors base ++ flag_author c
  /\ IDs f = IDs base ++ flag_id c
  /\ Kinds f = Kinds base ++ flag_kind c
  /\ Search f = (if bool_decide (flag_search c = EmptyString)
                 then Search base else flag_search c).
Proof.
  intros Hb. apply build_Ok_shape in Hb as (m & _ & ->).
  destruct (apply_bounds_lists c (with_Tags (apply_lists c base) m)) as (-> & -> & -> & ->).
  cbn [Authors IDs Kinds Search with_Tags]. apply apply_lists_fields.
Qed.

Lemma list_overrides_append_witness :
  let c := mkFlags ["a2"] ["i2"] [4549] [] [] [] [] None None None "nostr"
                   false false 0 0 false false false in
  let base := mkFilter ["i1"] [1] ["a1"] None None None 0 "old" false in
  exists f, build c base = Ok f
    /\ Authors f = ["a1"; "a2"] /\ IDs f = ["i1"; "i2"] /\ Kinds f = [1; 4549]
    /\ Search f = "nostr".
Proof.
  eexists. split; [reflexivity|].
  exact (list_overrides_append
           (mkFlags ["a2"] ["i2"] [4549] [] [] [] [] None None None "nostr"
                    false false 0 0 false false false)
           (mkFilter ["i1"] [1] ["a1"] None None None 0 "old" false) _ eq_refl).
Defined.

(** X2: without any flag of the filter attributes the builder gives back
    the filter of the line as it is, whatever the other flags are. *)
Theorem build_without_filter_flags (c : Flags) (base : Filter) :
  no_filter_flags c -> build c base = Ok base.
Proof.
  intros (Ha & Hi & Hk & Ht & He & Hp & Hd & Hs & Hu & Hl & Hq).
  unfold build, apply_tags, collect_tags, apply_lists, apply_times, apply_limit,
    Uint_limit, IsSet_limit.
  rewrite Ha, Hi, Hk, Ht, He, Hp, Hd, Hs, Hu, Hl, Hq. simpl.
  destruct base as [? ? ? [m|] ? ? ? ? ?]; reflexivity.
Qed.

Lemma build_without_filter_flags_witness :
  let base := mkFilter ["i1"] [1] ["a1"] (Some {[ "t" := ["x"] ]}) (Some 5) None 7 "q" true in
  build (with_flag_modes no_flags true true) base = Ok base.
Proof.
  apply (build_without_filter_flags (with_flag_modes no_flags true true)).
  repeat split; reflexivity.
Defined.

(** X3: whether the builder succeeds is decided by the [--tag] values
    alone: it gives a filter when all of them are well formed, and the
    error that names the first malformed one otherwise, for every base
    filter and whatever the [-e], [-p] and [-d] values are.  It never
    panics. *)
Theorem build_outcome_decided_by_tags (c : Flags) (base : Filter) :
  match first_malformed (flag_tag c) with
  | None => exists f, build c base = Ok f
  | Some t => build c base = Error (invalid_tag_msg t)
  end.
Proof.
  destruct (first_malformed (flag_tag c)) as [t|] eqn:Ht.
  - by apply build_malformed.
  - by apply build_well_formed.
Qed.

(** X4: a [--tag] value is kept, as the pair of its key and value, exactly
    when it is a key of one byte, an equals sign and a value without
    equals sign; all other values are rejected. *)
Theorem tag_accepted_iff_key_value (tagFlag k v : string) :
  parse_tag tagFlag = Ok (k, v) <->
  tagFlag = k +:+ "=" +:+ v /\ String.length k = 1%nat
  /\ eq_free k = true /\ eq_free v = true.
Proof.
  unfold parse_tag. split.
  - destruct (Split_eq tagFlag) as [|k' [|v' [|]]] eqn:Hs; try discriminate.
    destruct (Nat.eqb_spec (String.length k') 1); [|discriminate].
    intros [= -> ->]. apply Split_eq_two in Hs as (? & ? & ?). done.
  - intros (-> & Hlen & Hk & Hv).
    rewrite Split_eq_join, (Split_eq_free v) by done.
    by rewrite Hlen.
Qed.

(** The tag step gives a nil map only for a nil map and no tag. *)
Lemma apply_tags_result (c : Flags) (g : Filter) (tags : list (string * string)) :
  collect_tags c = Ok tags ->
  exists m, apply_tags c g = Ok (with_Tags g m)
            /\ (m = None <-> Tags g = None /\ tags = []).
Proof.
  intros Hc. unfold apply_tags. rewrite Hc. cbn [bind].
  destruct tags as [|t ts].
  - exists (Tags g). split; [by destruct (Tags g)|]. tauto.
  - destruct (Tags g) as [m0|] eqn:Hm.
    + rewrite Hm. destruct (add_tags_lookup (t :: ts) m0) as (m' & -> & _).
      exists (Some m'). split; [done|]. split; [done|]. by intros [? _].
    + cbn [Tags with_Tags].
      destruct (add_tags_lookup (t :: ts) ∅) as (m' & -> & _).
      exists (Some m'). split; [done|]. split; [done|]. by intros [_ ?].
Qed.

(** X5: the tag map of the built filter is nil exactly when the line has
    none and no tag is given: the map is made only to hold a tag, and a
    map that is there is kept. *)
Theorem build_Tags_nil_iff (c : Flags) (base f : Filter) :
  build c base = Ok f ->
  Tags f = None <->
  Tags base = None /\ flag_tag c = [] /\ flag_e c = [] /\ flag_p c = [] /\ flag_d c = [].
Proof.
  intros Hb.
  destruct (parse_tags (flag_tag c)) as [generic|msg|] eqn:Hg.
  - assert (Hc : collect_tags c = Ok (generic ++ map (fun v => ("e", v)) (flag_e c)
                                  ++ map (fun v => ("p", v)) (flag_p c)
                                  ++ map (fun v => ("d", v)) (flag_d c))).
    { unfold collect_tags. by rewrite Hg. }
    destruct (apply_tags_result c (apply_lists c base) _ Hc) as (m & Hm & Hnil).
    unfold build in Hb. rewrite Hm in Hb. injection Hb as <-.
    rewrite apply_bounds_Tags. cbn [Tags with_Tags]. rewrite Hnil.
    destruct (apply_lists_frame c base) as (-> & _).
    apply parse_tags_Ok, Forall2_length in Hg.
    split.
    + intros (Hbase & Hts). apply app_eq_nil in Hts as [-> Hts].
      apply app_eq_nil in Hts as [He Hts]. apply app_eq_nil in Hts as [Hp Hd].
      apply map_eq_nil in He, Hp, Hd. apply length_zero_iff_nil in Hg. done.
    + intros (Hbase & Ht & -> & -> & ->). rewrite Ht in Hg.
      symmetry in Hg. apply length_zero_iff_nil in Hg as ->. done.
  - unfold build, apply_tags, collect_tags in Hb. rewrite Hg in Hb. discriminate.
  - unfold build, apply_tags, collect_tags in Hb. rewrite Hg in Hb. discriminate.
Qed.

Lemma build_Tags_nil_iff_witness :
  exists f, build (with_flag_e no_flags ["abc"]) empty_filter = Ok f
            /\ Tags f <> None /\ Tags empty_filter = None.
Proof.
  eexists. split; [reflexivity|]. split; [|reflexivity].
  intros Hnil.
  apply (build_Tags_nil_iff (with_flag_e no_flags ["abc"]) empty_filter _ eq_refl) in Hnil.
  destruct Hnil as (_ & _ & He & _). discriminate He.
Defined.

Lemma parse_tags_app (l1 l2 : list string) :
  parse_tags (l1 ++ l2)
  = (t1 <- parse_tags l1 ;; t2 <- parse_tags l2 ;; Ok (t1 ++ t2)).
Proof.
  induction l1 as [|s l1 IH]; simpl.
  - by destruct (parse_tags l2).
  - destruct (parse_tag s) as [t| |]; simpl; try done.
    rewrite IH. destruct (parse_tags l1) as [t1| |]; simpl; try done.
    by destruct (parse_tags l2).
Qed.

(** X6: [-e value] is the shortcut it is said to be: for a value without
    equals sign, giving [--tag e=value] after the other [--tag] values
    builds the same filter as giving the value in front of the [-e]
    values. *)
Theorem shortcut_e_is_tag_e (c : Flags) (base : Filter) (v : string) :
  eq_free v = true ->
  build (with_flag_tag c (flag_tag c ++ ["e=" +:+ v])) base
  = build (with_flag_e c (v :: flag_e c)) base.
Proof.
  intros Hv.
  assert (Hp : parse_tag ("e=" +:+ v) = Ok ("e", v)).
  { apply parse_tag_Ok. done. }
  assert (Hc : collect_tags (with_flag_tag c (flag_tag c ++ ["e=" +:+ v]))
               = collect_tags (with_flag_e c (v :: flag_e c))).
  { unfold collect_tags. cbn [flag_tag flag_e flag_p flag_d with_flag_tag with_flag_e].
    rewrite parse_tags_app. cbn [parse_tags]. rewrite Hp. cbn [bind].
    destruct (parse_tags (flag_tag c)) as [generic| |]; cbn [bind]; try done.
    by rewrite <- app_assoc. }
  unfold build, apply_tags. rewrite Hc. reflexivity.
Qed.

Lemma shortcut_e_is_tag_e_witness :
  exists f, build (with_flag_tag no_flags ["e=abc"]) empty_filter = Ok f
            /\ build (with_flag_e no_flags ["abc"]) empty_filter = Ok f
            /\ tag_lookup (Tags f) "e" = Some ["abc"].
Proof.
  eexists. split; [|split].
  - exact (shortcut_e_is_tag_e no_flags empty_filter "abc" eq_refl).
  - reflexivity.
  - reflexivity.
Defined.

(** A value with an equals sign is taken by [-e] and refused by [--tag]. *)
Example shortcut_e_takes_equals_sign :
  (exists f, build (with_flag_e no_flags ["a=b"]) empty_filter = Ok f
             /\ tag_lookup (Tags f) "e" = Some ["a=b"])
  /\ build (with_flag_tag no_flags ["e=a=b"]) empty_filter
     = Error "invalid --tag 'e=a=b'".
Proof. split; [eexists; split; reflexivity | reflexivity]. Qed.

(** X7: a limit flag from [2^63] on does not fit the filter's [int]: the
    limit that is written is the flag less [2^64], a negative number, and
    the explicit zero is not written. *)
Theorem limit_flag_beyond_int_wraps (c : Flags) (base f : Filter) (n : Z) :
  build c base = Ok f ->
  flag_limit c = Some n ->
  2 ^ 63 <= n < 2 ^ 64 ->
  Limit f = n - 2 ^ 64 /\ Limit f < 0 /\ LimitZero f = LimitZero base.
Proof.
  intros Hb Hn Hrange. apply build_Ok_bounds in Hb as (g & -> & _ & _ & _ & Hz).
  rewrite <- Hz.
  assert (Ht : LimitZero (apply_times c g) = LimitZero g).
  { unfold apply_times. destruct (flag_since c), (flag_until c); done. }
  rewrite <- Ht. unfold apply_limit, Uint_limit. rewrite Hn.
  cbv beta iota delta [default from_option id].
  destruct (Z.eqb_spec n 0) as [?|_]; [lia|]. cbn [negb Limit LimitZero with_Limit].
  unfold int_of_uint64. destruct (Z.ltb_spec n (2 ^ 63)) as [?|_]; [lia|].
  split; [reflexivity|split; [lia|done]].
Qed.

Lemma limit_flag_beyond_int_wraps_witness :
  exists f, build (with_flag_limit no_flags (Some (2 ^ 64 - 1))) empty_filter = Ok f
            /\ Limit f = -1 /\ LimitZero f = false.
Proof.
  eexists. split; [reflexivity|].
  destruct (limit_flag_beyond_int_wraps (with_flag_limit no_flags (Some (2 ^ 64 - 1)))
              empty_filter _ (2 ^ 64 - 1) eq_refl eq_refl
              ltac:(split; [apply Z.leb_le | apply Z.ltb_lt]; reflexivity))
    as (Hl & _ & Hz).
  split; [exact Hl | exact Hz].
Defined.

Lemma concat_cons2 (sep x y : string) (l : list string) :
  String.concat sep (x :: y :: l) = x +:+ sep +:+ String.concat sep (y :: l).
Proof. reflexivity. Qed.

(** X8: splitting at the equals signs loses nothing: the pieces joined by
    equals signs give the string back, no piece holds an equals sign, and
    there is always a first piece. *)
Theorem Split_eq_round_trip (s : string) :
  String.concat "=" (Split_eq s) = s
  /\ Forall (fun piece => eq_free piece = true) (Split_eq s)
  /\ Split_eq s <> [].
Proof.
  split; [|split; [|apply Split_eq_not_nil]].
  - induction s as [|c s IH]; [done|]. cbn [Split_eq].
    pose proof (Split_eq_not_nil s) as Hne.
    destruct (Split_eq s) as [|piece pieces]; [done|].
    destruct (Ascii.eqb c eq_sign) eqn:Hc.
    + apply Ascii.eqb_eq in Hc as ->. rewrite concat_cons2, IH. done.
    + destruct pieces as [|p2 pieces].
      * change (String c piece = String c s). f_equal. exact IH.
      * rewrite concat_cons2. rewrite concat_cons2 in IH.
        change (String c (piece +:+ "=" +:+ String.concat "=" (p2 :: pieces)) = String c s).
        by rewrite IH.
  - induction s as [|c s IH]; simpl; [by repeat constructor|].
    destruct (Ascii.eqb c eq_sign) eqn:Hc.
    + by constructor.
    + pose proof (Split_eq_not_nil s) as Hne.
      destruct (Split_eq s) as [|piece pieces]; [done|].
      apply Forall_cons in IH as [Hp Hps].
      constructor; [|done]. simpl. by rewrite Hc, Hp.
Qed.

(** * Further properties of the action *)

Section ActionExtras.
Context `{Environment}.

(** How the loop ends, from the flags and the lines alone. *)
Lemma line_loop_result (c : Flags) (relayUrls lines : list string) :
  (line_loop c relayUrls lines false).2
  = match first_malformed (flag_tag c) with
    | None => Ok (existsb invalid_json lines)
    | Some t => if forallb invalid_json lines
                then Ok (negb (bool_decide (lines = [])))
                else Error (invalid_tag_msg t)
    end.
Proof.
  destruct (first_malformed (flag_tag c)) as [t|] eqn:Ht.
  - by rewrite (line_loop_malformed c relayUrls lines false t Ht).
  - by rewrite (line_loop_well_formed c relayUrls lines false Ht).
Qed.

Lemma forallb_existsb (p : string -> bool) (l : list string) :
  forallb p l = true -> l <> [] -> existsb p l = true.
Proof.
  destruct l as [|x l]; [done|]. simpl. intros Hall _.
  apply andb_true_iff in Hall as [-> _]. done.
Qed.

Lemma existsb_forallb (p : string -> bool) (l : list string) :
  existsb p l = false -> forallb p l = true -> l = [].
Proof.
  intros He Hf. destruct l as [|x l]; [done|].
  rewrite (forallb_existsb p (x :: l) Hf) in He; done.
Qed.

(** The outcome of the action once the relays are settled. *)
Lemma Action_outcome (c : Flags) (args lines : list string) :
  (Action c args lines).2
  = if bool_decide (args <> [] /\ connectToAllRelays args (flag_force_pre_auth c) = [])
    then OsExit 3
    else match first_malformed (flag_tag c) with
         | None => if existsb invalid_json lines then ExitLineProcessingError else ReturnNil
         | Some t => if forallb invalid_json lines
                     then if bool_decide (lines = []) then ReturnNil
                          else ExitLineProcessingError
                     else ReturnError (invalid_tag_msg t)
         end.
Proof.
  unfold Action. destruct args as [|a args].
  - rewrite bool_decide_eq_false_2 by (by intros [? _]).
    cbn [snd]. rewrite line_loop_result.
    destruct (first_malformed (flag_tag c)); [|by destruct (existsb _ _)].
    destruct (forallb _ _); [|done]. by case_bool_decide.
  - destruct (connectToAllRelays (a :: args) (flag_force_pre_auth c)) as [|r rs] eqn:Hr.
    + by rewrite bool_decide_eq_true_2.
    + rewrite bool_decide_eq_false_2 by (by intros [_ ?]).
      cbn [snd]. rewrite line_loop_result.
      destruct (first_malformed (flag_tag c)); [|by destruct (existsb _ _)].
      destruct (forallb _ _); [|done]. by case_bool_decide.
Qed.

(** X9: the action returns an error exactly when the relays are settled
    (none asked for, or one connected), a [--tag] value is malformed and a
    line is read; the error names the first malformed value.  No other
    error is returned. *)
Theorem Action_returns_error_iff (c : Flags) (args lines : list string) (msg : string) :
  (Action c args lines).2 = ReturnError msg <->
  (args = [] \/ connectToAllRelays args (flag_force_pre_auth c) <> [])
  /\ forallb invalid_json lines = false
  /\ exists t, first_malformed (flag_tag c) = Some t /\ msg = invalid_tag_msg t.
Proof.
  rewrite Action_outcome. case_bool_decide as Hconn.
  - split; [done|]. intros ([->|Hne] & _); destruct Hconn; done.
  - assert (Hok : args = [] \/ connectToAllRelays args (flag_force_pre_auth c) <> []).
    { destruct args; [by left|]. right. intros He. apply Hconn. done. }
    destruct (first_malformed (flag_tag c)) as [t|].
    + destruct (forallb invalid_json lines).
      * split; [by case_bool_decide|]. by intros (_ & ? & _).
      * split.
        -- intros [= <-]. split; [exact Hok|]. split; [reflexivity|]. by exists t.
        -- intros (_ & _ & t' & [= <-] & ->). done.
    + split; [by destruct (existsb _ _)|]. by intros (_ & _ & t & ? & _).
Qed.

(** X10: the action returns nil only when the relays are settled (none
    asked for, or one connected), no line is refused by the JSON reader and
    the [--tag] values are well formed (or there is no line at all); empty
    lines never count as refused.  Without relay arguments, where nothing
    is subscribed, these conditions are also enough. *)
Theorem Action_returns_nil_only_when_clean (c : Flags) (args lines : list string) :
  ((Action c args lines).2 = ReturnNil ->
   (args = [] \/ connectToAllRelays args (flag_force_pre_auth c) <> [])
   /\ existsb invalid_json lines = false
   /\ (first_malformed (flag_tag c) = None \/ lines = []))
  /\ ((Action c [] lines).2 = ReturnNil <->
      existsb invalid_json lines = false
      /\ (first_malformed (flag_tag c) = None \/ lines = [])).
Proof.
  assert (Hcases : forall args',
             ~ (args' <> [] /\ connectToAllRelays args' (flag_force_pre_auth c) = []) ->
             (match first_malformed (flag_tag c) with
              | None => if existsb invalid_json lines
                        then ExitLineProcessingError else ReturnNil
              | Some t => if forallb invalid_json lines
                          then if bool_decide (lines = []) then ReturnNil
                               else ExitLineProcessingError
                          else ReturnError (invalid_tag_msg t)
              end) = ReturnNil <->
             existsb invalid_json lines = false
             /\ (first_malformed (flag_tag c) = None \/ lines = [])).
  { intros _ _. destruct (first_malformed (flag_tag c)) as [t|].
    - destruct (forallb invalid_json lines) eqn:Hall.
      + case_bool_decide as Hl.
        * subst lines. split; [|done]. intros _. split; [reflexivity|by right].
        * split; [done|]. intros (He & [?|?]); done.
      + split; [done|]. intros (_ & [?| ->]); done.
    - destruct (existsb invalid_json lines) eqn:He.
      + split; [done|]. by intros (? & _).
      + split; [|done]. intros _. split; [reflexivity|by left]. }
  split.
  - rewrite Action_outcome.
    destruct (bool_decide (args <> [] /\ _)) eqn:Hconn; [intros ?; discriminate|].
    apply bool_decide_eq_false in Hconn.
    intros Hnil. apply (Hcases args Hconn) in Hnil. split; [|exact Hnil].
    destruct args; [by left|]. right. intros He. apply Hconn. done.
  - rewrite Action_outcome. rewrite bool_decide_eq_false_2 by (by intros [? _]).
    apply (Hcases []). by intros [? _].
Qed.

Lemma line_loop_no_Close (c : Flags) (relayUrls lines : list string) (ctx : bool) :
  Forall (fun e => is_Close e = false) (line_loop c relayUrls lines ctx).1.
Proof.
  revert ctx. induction lines as [|l lines IH]; intros b; simpl; [done|].
  destruct (read_line l) as [base|]; [|apply IH].
  destruct (build c base); simpl; [|done|done].
  apply Forall_app. split; [|apply IH].
  unfold deliver. destruct relayUrls; [by repeat constructor|].
  constructor; [done|]. by apply Forall_map, Forall_true.
Qed.

(** X11: when the action returns, with nil or with an error, every relay
    that was connected is closed, once, in the order of the connections
    and after everything else; nothing is closed before. *)
Theorem returning_action_closes_every_relay
    (c : Flags) (arg : string) (args lines : list string) :
  (Action c (arg :: args) lines).2 = ReturnNil
  \/ (exists msg, (Action c (arg :: args) lines).2 = ReturnError msg) ->
  exists body,
    (Action c (arg :: args) lines).1
    = Connect (arg :: args) (flag_force_pre_auth c) :: body
        ++ map Close (connectToAllRelays (arg :: args) (flag_force_pre_auth c))
    /\ Forall (fun e => is_Close e = false) body.
Proof.
  unfold Action.
  destruct (connectToAllRelays (arg :: args) (flag_force_pre_auth c)) as [|r rs].
  - intros [?|[msg ?]]; done.
  - cbn [fst snd]. intros Hret.
    exists (line_loop c (r :: rs) lines false).1. split; [|apply line_loop_no_Close].
    destruct (line_loop c (r :: rs) lines false).2 as [[|]|msg|]; simpl in *; try done;
      destruct Hret as [?|[? ?]]; done.
Qed.

(** X12: every subscription of an invocation goes to the relays that were
    connected (their own addresses, not the arguments), and an invocation
    with relay arguments never prints a filter. *)
Theorem subscriptions_go_to_connected_relays
    (c : Flags) (arg : string) (args lines : list string) :
  Forall (subscribes_to (connectToAllRelays (arg :: args) (flag_force_pre_auth c)))
         (Action c (arg :: args) lines).1
  /\ Forall (fun e => is_Stdout e = false) (Action c (arg :: args) lines).1.
Proof.
  unfold Action.
  destruct (connectToAllRelays (arg :: args) (flag_force_pre_auth c)) as [|r rs].
  - split; by repeat constructor.
  - cbn [fst snd].
    assert (Hloop : forall b,
               Forall (subscribes_to (r :: rs)) (line_loop c (r :: rs) lines b).1
               /\ Forall (fun e => is_Stdout e = false) (line_loop c (r :: rs) lines b).1).
    { induction lines as [|l lines IH]; intros b; simpl; [done|].
      destruct (read_line l) as [base|]; [|apply IH].
      destruct (build c base); simpl; [|done|done].
      destruct (IH b) as [IH1 IH2].
      split; (constructor; [done|]); (apply Forall_app; split; [|done]);
        by apply Forall_map, Forall_true. }
    assert (Hfin : forall r0,
               Forall (subscribes_to (r :: rs)) (finish (r :: rs) r0).1
               /\ Forall (fun e => is_Stdout e = false) (finish (r :: rs) r0).1).
    { intros [[|]| |]; simpl; split; try done;
        (constructor; [done|]); by apply Forall_map, Forall_true. }
    destruct (Hloop false) as [H1 H2].
    destruct (Hfin (line_loop c (r :: rs) lines false).2) as [H3 H4].
    split; (constructor; [done|]); apply Forall_app; done.
Qed.

(** X13: with a strategy whose subscriptions end by themselves (not the
    streaming one), well-formed tags and a relay connected, the action
    opens one subscription for every line that is read, in order, with the
    filter built for the line, and prints the events of each subscription
    before it opens the next; after the last one it only closes
    connections. *)
Theorem relay_mode_subscribes_per_line
    (c : Flags) (arg : string) (args lines : list string) :
  flag_stream c = false \/ flag_paginate c = true ->
  first_malformed (flag_tag c) = None ->
  connectToAllRelays (arg :: args) (flag_force_pre_auth c) <> [] ->
  exists closes,
    (Action c (arg :: args) lines).1
    = Connect (arg :: args) (flag_force_pre_auth c)
        :: flat_map (subscription c (connectToAllRelays (arg :: args) (flag_force_pre_auth c)))
                    (omap (built_filter c) lines)
        ++ closes
    /\ Forall (fun e => is_Close e = true) closes.
Proof.
  intros _ Ht Hconn. unfold Action.
  destruct (connectToAllRelays (arg :: args) (flag_force_pre_auth c)) as [|r rs]; [done|].
  cbn [fst snd]. rewrite (line_loop_well_formed c (r :: rs) lines false Ht). cbn [fst snd].
  exists (finish (r :: rs) (Ok (false || existsb invalid_json lines))).1. split.
  - do 2 f_equal. clear. induction lines as [|l lines IH]; simpl; [done|].
    unfold line_effects at 1. destruct (built_filter c l) as [f|]; simpl; [|done].
    by rewrite IH.
  - destruct (existsb invalid_json lines); simpl; [done|].
    constructor; [done|]. by apply Forall_map, Forall_true.
Qed.

(** X14: the loop works line by line: what it does for a sequence of lines
    is what it does for the first part followed by what it does for the
    rest, and the error flag it carries has no part in it. *)
Theorem line_loop_is_linewise
    (c : Flags) (relayUrls lines1 lines2 : list string) (ctx ctx1 ctx2 : bool) :
  (line_loop c relayUrls (lines1 ++ lines2) ctx).1
  = (line_loop c relayUrls lines1 ctx1).1 ++ (line_loop c relayUrls lines2 ctx2).1.
Proof.
  destruct (first_malformed (flag_tag c)) as [t|] eqn:Ht.
  - by rewrite !(line_loop_malformed c relayUrls _ _ t Ht).
  - rewrite !(line_loop_well_formed c relayUrls _ _ Ht). cbn [fst].
    apply flat_map_app.
Qed.

End ActionExtras.

Lemma returning_action_closes_every_relay_witness :
  let args := ["wss://down.example"; "wss://b.example"] in
  (Action (H := sample_env) (with_flag_tag no_flags ["bad"]) ("wss://a.example" :: args)
          ["{}"]).2
  = ReturnError "invalid --tag 'bad'"
  /\ exists body,
       (Action (H := sample_env) (with_flag_tag no_flags ["bad"]) ("wss://a.example" :: args)
               ["{}"]).1
       = Connect ("wss://a.example" :: args) false :: body
           ++ [Close "wss://a.example"; Close "wss://b.example"]
       /\ Forall (fun e => is_Close e = false) body.
Proof.
  split; [reflexivity|].
  exact (returning_action_closes_every_relay (H := sample_env)
           (with_flag_tag no_flags ["bad"]) "wss://a.example"
           ["wss://down.example"; "wss://b.example"] ["{}"]
           (or_intror (ex_intro _ "invalid --tag 'bad'" eq_refl))).
Defined.

Lemma relay_mode_subscribes_per_line_witness :
  select_fn no_flags = Eose
  /\ exists closes,
       (Action (H := sample_env) no_flags ["wss://a.example"] ["{}"; "oops"; EmptyString]).1
       = Connect ["wss://a.example"] false
           :: [Subscribe Eose ["wss://a.example"] (with_Tags empty_filter (Some ∅));
               StdoutEvent (H := sample_env) "wss://a.example";
               Subscribe Eose ["wss://a.example"] empty_filter;
               StdoutEvent (H := sample_env) "wss://a.example"]
           ++ closes.
Proof.
  split; [reflexivity|].
  destruct (relay_mode_subscribes_per_line (H := sample_env) no_flags "wss://a.example" []
              ["{}"; "oops"; EmptyString] (or_introl eq_refl) eq_refl ltac:(discriminate))
    as (closes & Htrace & _).
  exists closes. exact Htrace.
Defined.

Lemma Action_returns_nil_only_when_clean_witness :
  (Action (H := sample_env) no_flags [] ["{}"; EmptyString]).2 = ReturnNil
  /\ existsb (invalid_json (H := sample_env)) ["{}"; EmptyString] = false.
Proof.
  destruct (Action_returns_nil_only_when_clean (H := sample_env) no_flags []
              ["{}"; EmptyString]) as [Honly Hiff].
  assert (Hnil : (Action (H := sample_env) no_flags [] ["{}"; EmptyString]).2 = ReturnNil).
  { apply Hiff. split; [reflexivity|by left]. }
  split; [exact Hnil|]. exact (proj1 (proj2 (Honly Hnil))).
Defined.

(** * Further properties of the authentication handler *)

Section AuthExtras.
Context `{Signer}.

(** X15: the handler reports success only after it has signed: the
    operator opted in, the key or the bunker was gathered, and the last
    thing the handler did was to sign the challenge event with what it
    gathered (the bunker when there is one, the secret key otherwise),
    without error. *)
Theorem authHandler_success_means_signed (c : Flags) (evt : AuthEvent) :
  (authHandler c evt).2 = None ->
  (flag_auth c = true \/ flag_force_pre_auth c = true)
  /\ exists sec bunker,
       gatherSecretKeyOrBunkerFromArguments c = Value (sec, bunker)
       /\ match bunker with
          | Some b => (exists pk, Bunker_GetPublicKey b = Value pk)
                      /\ last (authHandler c evt).1 = Some (SignWithBunker b evt)
                      /\ Bunker_SignEvent b evt = None
          | None => last (authHandler c evt).1 = Some (SignWithKey sec evt)
                    /\ Event_Sign evt sec = None
          end.
Proof.
  unfold authHandler.
  destruct (flag_auth c), (flag_force_pre_auth c); simpl; try done;
    (split; [tauto|]);
    destruct (gatherSecretKeyOrBunkerFromArguments c) as [[sec [b|]]|err]; simpl in *;
    try done;
    try (destruct (Bunker_GetPublicKey b) as [pk|err] eqn:Hpk; simpl in *; try done);
    exists sec; eexists; (split; [reflexivity|]); simpl; eauto.
Qed.

(** X16: the handler signs at most once, as the last thing it does, and
    only the event it was given; it signs with the bunker only when one was
    gathered and gave its public key, and with the secret key only when no
    bunker was gathered.  Without opting in, and after a failure to gather
    or to get the bunker's key, nothing is signed. *)
Theorem authHandler_signs_at_most_once (c : Flags) (evt : AuthEvent) :
  (length (List.filter is_signing (authHandler c evt).1) <= 1)%nat
  /\ (forall e, e ∈ (authHandler c evt).1 -> is_signing e = true ->
        last (authHandler c evt).1 = Some e
        /\ (flag_auth c = true \/ flag_force_pre_auth c = true))
  /\ (forall b evt', SignWithBunker b evt' ∈ (authHandler c evt).1 ->
        evt' = evt
        /\ (exists sec, gatherSecretKeyOrBunkerFromArguments c = Value (sec, Some b))
        /\ exists pk, Bunker_GetPublicKey b = Value pk)
  /\ (forall sec evt', SignWithKey sec evt' ∈ (authHandler c evt).1 ->
        evt' = evt /\ gatherSecretKeyOrBunkerFromArguments c = Value (sec, None)).
Proof.
  unfold authHandler.
  destruct (negb (flag_auth c) && negb (flag_force_pre_auth c)) eqn:Hgate.
  - simpl. repeat split; try lia; intros; by match goal with
                                             | Hin : _ ∈ [] |- _ => apply elem_of_nil in Hin
                                             end.
  - assert (Hopt : flag_auth c = true \/ flag_force_pre_auth c = true).
    { destruct (flag_auth c), (flag_force_pre_auth c); simpl in Hgate; auto. }
    destruct (gatherSecretKeyOrBunkerFromArguments c) as [[sec [b|]]|err]; simpl;
      try (destruct (Bunker_GetPublicKey b) as [pk|err] eqn:Hpk; simpl);
      (split; [lia|]); (split; [|split]);
      intros; repeat match goal with
                     | Hin : _ ∈ _ :: _ |- _ => apply elem_of_cons in Hin as [Hin|Hin]
                     | Hin : _ ∈ [] |- _ => by apply elem_of_nil in Hin
                     | Heq : _ = _ |- _ => first [discriminate Heq | injection Heq as -> ->
                                                  | subst ]
                     end; simpl in *; try done; eauto.
Qed.

End AuthExtras.

Lemma authHandler_success_means_signed_witness :
  let sec := "0000000000000000000000000000000000000000000000000000000000000001" in
  (authHandler (H := sample_signer) (with_flag_auth no_flags true) "challenge").2 = None
  /\ last (authHandler (H := sample_signer) (with_flag_auth no_flags true) "challenge").1
     = Some (SignWithKey (H := sample_signer) sec "challenge").
Proof.
  split; [reflexivity|].
  destruct (authHandler_success_means_signed (H := sample_signer)
              (with_flag_auth no_flags true) "challenge" eq_refl)
    as (_ & sec & bunker & Hg & Hsign).
  injection Hg as <- <-. exact (proj1 Hsign).
Defined.
